(** * BGM engine: content store, route resolver and render controller

    A shallow embedding of the two captured revisions of the BGM engine
    (the files [part_000] and [part_002]): the [escapeHTML] helper, the
    [ObservableContentStore] class and the navigation part of [BGM_Core],
    followed by the properties established about them. *)

From Stdlib Require Import ZArith Ascii String List Bool Lia.
From Stdlib Require QArith.
From stdpp Require Import base decidable option list strings pretty gmap.

Local Open Scope string_scope.

(** ** Strings as the engine uses them *)

Module Str.

(** The double-quote character, U+0022. *)
Definition dquote : ascii := "034"%char.

(** [s.includes(c)] for a one-character needle. *)
Fixpoint includes (c : ascii) (s : string) : bool :=
  match s with
  | EmptyString => false
  | String a rest => if decide (a = c) then true else includes c rest
  end.

(** [s.replaceAll(c, rep)] for a one-character pattern [c] and a
    replacement [rep] without dollar patterns: one pass from left to
    right, the replacement text is not scanned again. *)
Fixpoint replaceAll (c : ascii) (rep : string) (s : string) : string :=
  match s with
  | EmptyString => EmptyString
  | String a rest =>
      if decide (a = c) then rep +:+ replaceAll c rep rest
      else String a (replaceAll c rep rest)
  end.

(** JavaScript's [a || b] on strings: the empty string is falsy. *)
Definition or_else (a b : string) : string :=
  match a with EmptyString => b | _ => a end.

(** [s.replace(/^#/, "")]: drop one leading number sign. *)
Definition strip_hash (s : string) : string :=
  match s with
  | String "#" rest => rest
  | _ => s
  end.

(** White space removed by [trim], on the ASCII range: tab, line feed,
    vertical tab, form feed, carriage return and space. *)
Definition is_space (a : ascii) : bool :=
  let n := nat_of_ascii a in
  (Nat.leb 9 n && Nat.leb n 13) || Nat.eqb n 32.

Fixpoint trim_start (s : string) : string :=
  match s with
  | String a rest => if is_space a then trim_start rest else s
  | EmptyString => EmptyString
  end.

(** [trim_end] keeps a character when something other than white space
    follows it or when it is not white space itself. *)
Fixpoint trim_end (s : string) : string :=
  match s with
  | EmptyString => EmptyString
  | String a rest =>
      match trim_end rest with
      | EmptyString => if is_space a then EmptyString else String a EmptyString
      | kept => String a kept
      end
  end.

Definition trim (s : string) : string := trim_end (trim_start s).

End Str.

(** ** [escapeHTML] (identical in both revisions) *)

Module Html.
Import Str.

(** The values a template hands to [escapeHTML]: fields of the parsed
    content (strings, numbers, booleans, [null]) or a missing field
    ([undefined]). Numbers are the integers. *)
Inductive value :=
| VUndefined
| VNull
| VBool (b : bool)
| VNum (n : Z)
| VStr (s : string).

(** [value ?? fallback] *)
Definition nullish (v fallback : value) : value :=
  match v with
  | VUndefined | VNull => fallback
  | _ => v
  end.

(** [String(v)] *)
Definition to_String (v : value) : string :=
  match v with
  | VUndefined => "undefined"
  | VNull => "null"
  | VBool true => "true"
  | VBool false => "false"
  | VNum n => pretty n
  | VStr s => s
  end.

Definition amp : ascii := "&"%char.
Definition lt : ascii := "<"%char.
Definition gt : ascii := ">"%char.
Definition apos : ascii := "'"%char.

(** The chain of five [replaceAll] calls, on the coerced string. *)
Definition escape (s : string) : string :=
  replaceAll apos "&#39;"
    (replaceAll dquote "&quot;"
       (replaceAll gt "&gt;"
          (replaceAll lt "&lt;"
             (replaceAll amp "&amp;" s)))).

Definition escapeHTML (v : value) : string :=
  escape (to_String (nullish v (VStr EmptyString))).

(** The five substitution entities. *)
Definition entities : list string :=
  ["&amp;"; "&lt;"; "&gt;"; "&quot;"; "&#39;"].

(** The five characters that [escapeHTML] rewrites. *)
Definition special (a : ascii) : bool :=
  bool_decide (a = amp) || bool_decide (a = lt) || bool_decide (a = gt)
  || bool_decide (a = dquote) || bool_decide (a = apos).

(** What the chain does to one character. *)
Definition escape_char (a : ascii) : string :=
  if decide (a = amp) then "&amp;"
  else if decide (a = lt) then "&lt;"
  else if decide (a = gt) then "&gt;"
  else if decide (a = dquote) then "&quot;"
  else if decide (a = apos) then "&#39;"
  else String a EmptyString.

(** The chain as a single pass. *)
Fixpoint escape_pass (s : string) : string :=
  match s with
  | EmptyString => EmptyString
  | String a rest => escape_char a +:+ escape_pass rest
  end.

(** Every ampersand of [s] starts one of the entities. *)
Definition amp_starts_entity (s : string) : Prop :=
  ∀ pre suf, s = pre +:+ String amp suf →
    ∃ e, e ∈ entities ∧ String.prefix e (String amp suf) = true.

(** The same as a check that runs: at every ampersand, one of the
    entities is a prefix of what starts there. *)
Fixpoint amp_ok (s : string) : bool :=
  match s with
  | EmptyString => true
  | String a rest =>
      (if decide (a = amp)
       then existsb (λ e, String.prefix e s) entities else true)
      && amp_ok rest
  end.

(** No character of [s] is one of the five rewritten ones. *)
Definition clean (s : string) : Prop :=
  ∀ a, includes a s = true → special a = false.

End Html.

(** ** [ObservableContentStore]: what both revisions share *)

Module Store.

(** [JSON.stringify] on the parsed payload: a primitive of the host, taken
    as an interface of the payload type. *)
Class Serialize (P : Type) := stringify : P → string.

(** Observers are functions held in a [Set]; the set tells them apart by
    identity, which a number stands for. *)
Definition Observer := nat.

Record t (P : Type) := Make {
  contentUrl : string;
  intervalMs : Z;
  observers : list Observer;   (* a [Set], in insertion order *)
  data : option P;             (* [null] until the first successful load *)
  signature : string;
  timerId : option nat
}.
Arguments Make {P}.
Arguments contentUrl {P}.
Arguments intervalMs {P}.
Arguments observers {P}.
Arguments data {P}.
Arguments signature {P}.
Arguments timerId {P}.

(** The ways a load goes wrong. *)
Inductive failure :=
| FetchFailure (status : nat)   (* [new Error("Failed to load ... (status)")] *)
| ParseFailure                  (* [response.json()] rejects *)
| NetworkFailure.               (* [fetch] itself rejects *)

(** What a call leaves behind outside the store: observer invocations, in
    the order they happen, and console warnings. *)
Inductive effect (P : Type) :=
| Invoked (o : Observer) (d : option P)
| Warned (e : failure).
Arguments Invoked {P}.
Arguments Warned {P}.

(** How the promise returned by [load] settles. *)
Inductive settled (P : Type) :=
| Resolved (d : option P)
| Rejected (e : failure).
Arguments Resolved {P}.
Arguments Rejected {P}.

(** What the awaited [fetch] and [response.json()] deliver: a network
    error, or a response with its status and its body when it parses. *)
Inductive fetched (P : Type) :=
| NetworkError
| Response (status : nat) (body : option P).
Arguments NetworkError {P}.
Arguments Response {P}.

(** [response.ok]: the status is in the range 200 to 299. *)
Definition ok (status : nat) : bool :=
  Nat.leb 200 status && Nat.leb status 299.

Section WithPayload.
Context {P : Type} `{Serialize P}.

Definition constructor (contentUrl : string) (intervalMs : Z) : t P :=
  Make contentUrl intervalMs [] None EmptyString None.

Definition set_observers (l : list Observer) (s : t P) : t P :=
  Make (contentUrl s) (intervalMs s) l (data s) (signature s) (timerId s).

Definition set_snapshot (sig : string) (d : P) (s : t P) : t P :=
  Make (contentUrl s) (intervalMs s) (observers s) (Some d) sig (timerId s).

(** [Set.prototype.add]: an element already present keeps its place. *)
Definition set_add (o : Observer) (l : list Observer) : list Observer :=
  if decide (o ∈ l) then l else l ++ [o].

(** [Set.prototype.delete]: tells whether the element was present. *)
Definition set_delete (o : Observer) (l : list Observer)
  : bool * list Observer :=
  (bool_decide (o ∈ l), filter (λ x, x ≠ o) l).

(** The closure [() => this.observers.delete(observer)]. *)
Definition unsubscribe (o : Observer) (s : t P) : bool * t P :=
  let '(was, l) := set_delete o (observers s) in
  (was, set_observers l s).

Definition subscribe (o : Observer) (s : t P)
  : (t P → bool * t P) * t P * list (effect P) :=
  let s1 := set_observers (set_add o (observers s)) s in
  let fx := match data s1 with
            | Some d => [Invoked o (Some d)]
            | None => []
            end in
  (unsubscribe o, s1, fx).

Definition notify (s : t P) : list (effect P) :=
  map (λ o, Invoked o (data s)) (observers s).

(** [force ? Date.now() : Math.floor(Date.now() / this.intervalMs)], for
    a clock in whole milliseconds and a positive interval. *)
Definition cacheBust (force : bool) (now : Z) (s : t P) : Z :=
  if force then now else (now / intervalMs s)%Z.

Definition separator (s : t P) : string :=
  if Str.includes "?" (contentUrl s) then "&" else "?".

Definition requestUrl (force : bool) (now : Z) (s : t P) : string :=
  contentUrl s +:+ separator s +:+ "v=" +:+ pretty (cacheBust force now s).

(** The statements of [load] after the request is built, run when the
    response arrives, on the store as it is at that moment. *)
Definition load_steps (r : fetched P) (s : t P)
  : settled P * t P * list (effect P) :=
  match r with
  | NetworkError => (Rejected NetworkFailure, s, [])
  | Response status body =>
      if negb (ok status) then (Rejected (FetchFailure status), s, [])
      else
        match body with
        | None => (Rejected ParseFailure, s, [])
        | Some nextData =>
            let nextSignature := stringify nextData in
            if decide (nextSignature ≠ signature s) then
              let s1 := set_snapshot nextSignature nextData s in
              (Resolved (data s1), s1, notify s1)
            else (Resolved (data s), s, [])
        end
  end.

(** What the claim on fingerprints asks of the part of [load] that runs
    when a successful response with the payload [p] arrives at the store
    [s]: nothing happens for an equal fingerprint; for a different one the
    snapshot is swapped and the observers are called in order, once each;
    a second payload with the fingerprint of the first is silent. *)
Definition fingerprint_contract
    (resume : fetched P → t P → settled P * t P * list (effect P))
    (s : t P) (status : nat) (p : P) : Prop :=
  (stringify p = signature s →
     resume (Response status (Some p)) s = (Resolved (data s), s, []))
  ∧ (stringify p ≠ signature s →
     ∃ s1, resume (Response status (Some p)) s
           = (Resolved (Some p), s1,
              map (λ o, Invoked o (Some p)) (observers s))
         ∧ NoDup (map (λ o, @Invoked P o (Some p)) (observers s))
         ∧ data s1 = Some p ∧ signature s1 = stringify p
         ∧ observers s1 = observers s)
  ∧ (∀ status2 p2, ok status2 = true → stringify p2 = stringify p →
       let s1 := snd (fst (resume (Response status (Some p)) s)) in
       resume (Response status2 (Some p2)) s1 = (Resolved (data s1), s1, [])).

(** The promise of a load is rejected with [e]. *)
Definition fails_with (e : failure)
    (outcome : settled P * t P * list (effect P)) : Prop :=
  fst (fst outcome) = Rejected e.

End WithPayload.

End Store.

(** ** The content and the controller's state *)

Module Engine.

Record Article := {
  id : string;
  title : string;
  kicker : string   (* empty when the field is absent *)
}.

Record NavItem := { nav_id : string; label : string }.

Record Snapshot := {
  defaultRoute : string;                 (* [meta.defaultRoute], empty when absent *)
  articles : list Article;               (* [articles || []] *)
  navigation : option (list NavItem)     (* [navigation.primary] *)
}.

Record State := {
  content : option Snapshot;
  articlesById : gmap string Article;
  currentRoute : string;
  isNavigating : bool
}.

(** What the mount point shows, by the data it was drawn from. *)
Inductive view :=
| Blank
| HomeView (route : string) (c : option Snapshot) (idx : gmap string Article)
| ArticleView (a : Article).

(** Callbacks the host still has to run. *)
Inductive Task :=
| HashChange                              (* a [hashchange] event *)
| Frame (route : string) (animated : bool) (* the animation-frame callback of [commitDOM] *)
| Finished.                               (* [finished] of a view transition *)

(** How a callback of the host ends. A frame callback returns, or its
    drawing function throws: before the mount is written ([Failed]) or
    after it ([FailedLate]). The [finished] promise of a view transition is
    fulfilled or rejected. *)
Inductive settlement := Fulfilled | Failed | FailedLate.

(** The observable trace. [Committed r c] stands for the assignment of
    [currentRoute] and the call [onRouteChange(r)], with the content held
    at that moment. *)
Inductive Entry :=
| Committed (route : string) (c : Snapshot)
| Rendered (v : view)
| Settled.

Record Options := {
  enableViewTransitions : bool;
  startViewTransition_in_document : bool;
  pollIntervalMs : Z
}.

Record World := {
  st : State;
  fragment : string;            (* the fragment of the address, without the number sign *)
  navButtons : list string;     (* [data-route] of the buttons in the navigation *)
  activeNav : option string;    (* the [data-route] marked [is-active] *)
  routeTitle : string;
  mount : view;
  tasks : list Task;
  log : list Entry
}.

Definition with_st (f : State → State) (w : World) : World :=
  {| st := f (st w); fragment := fragment w; navButtons := navButtons w;
     activeNav := activeNav w; routeTitle := routeTitle w; mount := mount w;
     tasks := tasks w; log := log w |}.

Definition set_content (c : Snapshot) (idx : gmap string Article) (s : State) : State :=
  {| content := Some c; articlesById := idx;
     currentRoute := currentRoute s; isNavigating := isNavigating s |}.

Definition set_currentRoute (r : string) (s : State) : State :=
  {| content := content s; articlesById := articlesById s;
     currentRoute := r; isNavigating := isNavigating s |}.

Definition set_isNavigating (b : bool) (s : State) : State :=
  {| content := content s; articlesById := articlesById s;
     currentRoute := currentRoute s; isNavigating := b |}.

Definition set_fragment (f : string) (w : World) : World :=
  {| st := st w; fragment := f; navButtons := navButtons w;
     activeNav := activeNav w; routeTitle := routeTitle w; mount := mount w;
     tasks := tasks w; log := log w |}.

Definition set_navButtons (l : list string) (w : World) : World :=
  {| st := st w; fragment := fragment w; navButtons := l;
     activeNav := activeNav w; routeTitle := routeTitle w; mount := mount w;
     tasks := tasks w; log := log w |}.

Definition set_activeNav (a : option string) (w : World) : World :=
  {| st := st w; fragment := fragment w; navButtons := navButtons w;
     activeNav := a; routeTitle := routeTitle w; mount := mount w;
     tasks := tasks w; log := log w |}.

Definition set_routeTitle (t : string) (w : World) : World :=
  {| st := st w; fragment := fragment w; navButtons := navButtons w;
     activeNav := activeNav w; routeTitle := t; mount := mount w;
     tasks := tasks w; log := log w |}.

Definition set_mount (v : view) (w : World) : World :=
  {| st := st w; fragment := fragment w; navButtons := navButtons w;
     activeNav := activeNav w; routeTitle := routeTitle w; mount := v;
     tasks := tasks w; log := log w ++ [Rendered v] |}.

Definition set_tasks (l : list Task) (w : World) : World :=
  {| st := st w; fragment := fragment w; navButtons := navButtons w;
     activeNav := activeNav w; routeTitle := routeTitle w; mount := mount w;
     tasks := l; log := log w |}.

Definition enqueue (t : Task) (w : World) : World :=
  set_tasks (tasks w ++ [t]) w.

Definition emit (e : Entry) (w : World) : World :=
  {| st := st w; fragment := fragment w; navButtons := navButtons w;
     activeNav := activeNav w; routeTitle := routeTitle w; mount := mount w;
     tasks := tasks w; log := log w ++ [e] |}.

(** The state the constructor of [BGM_Core] builds, on a page opened at
    the fragment [frag]. *)
Definition initial_state : State :=
  {| content := None; articlesById := ∅; currentRoute := "home";
     isNavigating := false |}.

Definition initial (frag : string) : World :=
  {| st := initial_state; fragment := frag; navButtons := [];
     activeNav := None; routeTitle := EmptyString; mount := Blank;
     tasks := []; log := [] |}.

(** [window.location.hash]: empty for an empty fragment, otherwise the
    fragment after a number sign. *)
Definition location_hash (w : World) : string :=
  match fragment w with
  | EmptyString => EmptyString
  | f => "#" +:+ f
  end.

(** The fragment as the address keeps it (URL Standard, fragment state),
    on strings taken as their UTF-8 bytes: tabs, line feeds and carriage
    returns are dropped; control characters, the space, the double quote,
    [<], [>], the backtick and every byte above [~] are percent-encoded. *)
Definition hex_digit (n : nat) : ascii :=
  ascii_of_nat (if Nat.ltb n 10 then 48 + n else 55 + n).

Definition dropped (a : ascii) : bool :=
  let n := nat_of_ascii a in
  Nat.eqb n 9 || Nat.eqb n 10 || Nat.eqb n 13.

Definition percent_encoded (a : ascii) : bool :=
  let n := nat_of_ascii a in
  Nat.leb n 32 || Nat.eqb n 34 || Nat.eqb n 60 || Nat.eqb n 62
  || Nat.eqb n 96 || Nat.leb 127 n.

Fixpoint encode_fragment (s : string) : string :=
  match s with
  | EmptyString => EmptyString
  | String a rest =>
      if dropped a then encode_fragment rest
      else if percent_encoded a then
        String "%" (String (hex_digit (nat_of_ascii a / 16))
                      (String (hex_digit (nat_of_ascii a mod 16))
                         (encode_fragment rest)))
      else String a (encode_fragment rest)
  end.

(** A character that the address keeps as it is. *)
Definition kept (a : ascii) : bool := negb (percent_encoded a).

(** [window.location.hash = v]: the address keeps the encoded fragment,
    and a [hashchange] event is queued when the fragment changes. *)
Definition assign_location_hash (v : string) (w : World) : World :=
  let f := encode_fragment (Str.strip_hash v) in
  if decide (f = fragment w) then w
  else enqueue HashChange (set_fragment f w).

(** [new Map(articles.map((article) => [article.id, article]))]: a later
    article replaces an earlier one with the same id. *)
Definition index_articles (l : list Article) : gmap string Article :=
  foldl (λ m a, <[id a := a]> m) ∅ l.

(** [parseHashRoute], the same in both revisions. *)
Definition parseHashRoute (w : World) : string :=
  let value := Str.trim (Str.strip_hash (location_hash w)) in
  Str.or_else value
    (Str.or_else
       (match content (st w) with
        | Some c => defaultRoute c
        | None => EmptyString
        end)
       "home").

(** The route that [parseHashRoute] reads once the snapshot [c] is in. *)
Definition requested (w : World) (c : Snapshot) : string :=
  Str.or_else (Str.trim (Str.strip_hash (location_hash w)))
    (Str.or_else (defaultRoute c) "home").

(** [enableViewTransitions && "startViewTransition" in document] *)
Definition animated (o : Options) : bool :=
  enableViewTransitions o && startViewTransition_in_document o.

(** The callback given to [finally] in [renderRoute]. *)
Definition clear_guard (w : World) : World :=
  emit Settled (with_st (set_isNavigating false) w).

(** A route is valid against a snapshot when it is one of the literal
    routes [lits] or the id of one of its articles. *)
Definition valid_route (lits : list string) (r : string) (c : Snapshot) : Prop :=
  r ∈ lits ∨ ∃ a, a ∈ articles c ∧ id a = r.

(** Callbacks that belong to a commit under way. *)
Definition pending_commit (t : Task) : bool :=
  match t with
  | Frame _ _ | Finished => true
  | HashChange => false
  end.

Definition is_render (e : Entry) : bool :=
  match e with Rendered _ => true | _ => false end.


Definition count_renders (l : list Entry) : nat :=
  length (filter (λ e, is_render e = true) l).

(** The guard is up only while a commit has a callback pending. *)
Definition busy (w : World) : Prop :=
  isNavigating (st w) = true → ∃ t, t ∈ tasks w ∧ pending_commit t = true.

(** The index is the one built from the content held. *)
Definition indexed (w : World) : Prop :=
  ∀ c, content (st w) = Some c → articlesById (st w) = index_articles (articles c).

(** Every commit of the trace was for a route valid against the content
    held at that commit. *)
Definition commits_valid (lits : list string) (w : World) : Prop :=
  ∀ r c, Committed r c ∈ log w → valid_route lits r c.

(** The route of the latest commit of a trace. *)
Fixpoint last_commit (l : list Entry) : option string :=
  match l with
  | [] => None
  | Committed r _ :: rest =>
      match last_commit rest with Some r' => Some r' | None => Some r end
  | _ :: rest => last_commit rest
  end.

Definition current_is_last (w : World) : Prop :=
  currentRoute (st w) = default "home" (last_commit (log w)).

Definition commit_invariant (lits : list string) (w : World) : Prop :=
  indexed w ∧ commits_valid lits w ∧ current_is_last w.

(** What a frame callback changes: the title, the mount and the trace. *)
Definition drawn (w w' : World) : Prop :=
  ∃ t v, w' = {| st := st w; fragment := fragment w; navButtons := navButtons w;
                 activeNav := activeNav w; routeTitle := t; mount := v;
                 tasks := tasks w; log := (log w ++ [Rendered v])%list |}.


End Engine.

(** What can happen to a running engine: [init] reaches its call of
    [handleRouteChange], a click asks for a route, the address is changed
    from outside (typed, a link, back and forward), the store delivers a
    snapshot, the host runs one of the pending callbacks. *)
Module Events.
Import Engine.

Inductive Event :=
| Boot
| Click (route : string)
| Address (h : string)
| Content (c : Snapshot)
| Run (i : nat) (how : settlement).

End Events.

(** ** The contracts the specification asks of the controller *)

Module Contract.
Import Engine Events.

Section WithController.
Variable step : World → Event → World.

(** The host runs the oldest pending callback, [n] times. *)
Definition drain (n : nat) (w : World) : World :=
  foldl step w (replicate n (Run 0 Fulfilled)).


(** A snapshot that arrives during a transition is not lost: the mount is
    left alone by the update itself, and once every pending callback has run
    the mount has been drawn again since the update. *)
Definition refresh_kept (onContentUpdate : Snapshot → World → World)
    (w : World) (c : Snapshot) : Prop :=
  let w1 := onContentUpdate c w in
  isNavigating (st w) = true →
  mount w1 = mount w
  ∧ ∀ n, tasks (drain n w1) = [] →
      0 < count_renders (drop (length (log w1)) (log (drain n w1))).

End WithController.

End Contract.

(** ** The revision of [part_000] *)

Module Part000.
Import Engine Events.

Section Load.
Context {P : Type} `{Store.Serialize P}.

(** [load]: the request built at the call, and what happens when the
    response arrives. The [try] block is [Store.load_steps]; the [catch]
    warns and returns [this.data]. *)
Definition load (force : bool) (now : Z) (s : Store.t P)
  : string * (Store.fetched P → Store.t P →
              Store.settled P * Store.t P * list (Store.effect P)) :=
  (Store.requestUrl force now s,
   λ (r : Store.fetched P) (s1 : Store.t P),
     match Store.load_steps r s1 with
     | (Store.Rejected e, s2, fx) =>
         (Store.Resolved (Store.data s2), s2, (fx ++ [Store.Warned e])%list)
     | done => done
     end).

End Load.

Definition literals : list string := ["home"; "latest"; "watch"].

Definition normalizeRoute (routeCandidate : string) (s : State) : string :=
  if decide (routeCandidate ∈ literals) then routeCandidate
  else if decide (is_Some (articlesById s !! routeCandidate)) then routeCandidate
  else "home".

Definition paintActiveNav (route : string) (w : World) : World :=
  set_activeNav (if decide (route ∈ literals) then Some route else None) w.

Definition renderNavigation (w : World) : World :=
  let navItems :=
    match content (st w) with
    | Some c => default [] (navigation c)
    | None => []
    end in
  paintActiveNav (currentRoute (st w)) (set_navButtons (map nav_id navItems) w).

Definition renderHome (route : string) (w : World) : World :=
  set_mount (HomeView route (content (st w)) (articlesById (st w))) w.

Definition renderArticle (id : string) (w : World) : World :=
  match articlesById (st w) !! id with
  | None => renderHome "home" w
  | Some article => set_mount (ArticleView article) w
  end.

(** The closure [routeRenderer] of [renderRoute]; it reads the state when
    it runs. *)
Definition routeRenderer (route : string) (w : World) : World :=
  if decide (route ∈ literals) then
    renderHome route (set_routeTitle "Editorial Theater" w)
  else
    let kick := from_option kicker EmptyString (articlesById (st w) !! route) in
    renderArticle route (set_routeTitle (Str.or_else kick "Featured") w).

Definition renderRoute (o : Options) (route : string) (w : World) : World :=
  match content (st w) with
  | None => w
  | Some c =>
      let w1 := with_st (set_currentRoute route) w in
      let w2 := paintActiveNav route w1 in
      let w3 := emit (Committed route c) w2 in
      let w4 := with_st (set_isNavigating true) w3 in
      enqueue (Frame route (animated o)) w4
  end.

Definition navigate (o : Options) (route : string) (w : World) : World :=
  let normalizedRoute := normalizeRoute route (st w) in
  let targetHash := "#" +:+ normalizedRoute in
  if decide (location_hash w ≠ targetHash) then assign_location_hash targetHash w
  else renderRoute o normalizedRoute w.

Definition handleRouteChange (o : Options) (w : World) : World :=
  let requestedRoute := parseHashRoute w in
  let normalizedRoute := normalizeRoute requestedRoute (st w) in
  if decide (normalizedRoute ≠ requestedRoute) then navigate o normalizedRoute w
  else renderRoute o normalizedRoute w.

Definition onContentUpdate (o : Options) (c : Snapshot) (w : World) : World :=
  let w1 := with_st (set_content c (index_articles (articles c))) w in
  let w2 := renderNavigation w1 in
  if negb (isNavigating (st w2)) then renderRoute o (currentRoute (st w2)) w2
  else w2.

(** [routeRenderer] when the drawing function throws. The title is set
    first. [renderHome] ends with the write of the mount, so it throws
    before the write; [renderArticle] of this revision has one statement
    after the write ([this.mount.closest(...).scrollTop = 0]), so it can
    throw on either side of it. *)
Definition routeRenderer_thrown (late : bool) (route : string) (w : World) : World :=
  if decide (route ∈ literals) then set_routeTitle "Editorial Theater" w
  else
    let kick := from_option kicker EmptyString (articlesById (st w) !! route) in
    let w1 := set_routeTitle (Str.or_else kick "Featured") w in
    match articlesById (st w) !! route with
    | Some article => if late then set_mount (ArticleView article) w1 else w1
    | None => w1
    end.

(** One pending callback, run by the host. A frame callback calls
    [routeRenderer] and then [resolve]: when the drawing returns, the guard
    is cleared right after without a view transition, and with one when
    [finished] settles, either way. When the drawing throws, [resolve] is
    not reached: the promise of [commitDOM] stays pending, [finally] never
    runs and nothing more is queued. *)
Definition run_task (o : Options) (t : Task) (how : settlement) (w : World) : World :=
  match t with
  | HashChange => handleRouteChange o w
  | Frame route animated =>
      match how with
      | Fulfilled =>
          if animated then enqueue Finished (routeRenderer route w)
          else clear_guard (routeRenderer route w)
      | Failed => routeRenderer_thrown false route w
      | FailedLate => routeRenderer_thrown true route w
      end
  | Finished => clear_guard w
  end.

Definition step (o : Options) (w : World) (e : Event) : World :=
  match e with
  | Boot => handleRouteChange o w
  | Click route => navigate o route w
  | Address h => assign_location_hash h w
  | Content c => onContentUpdate o c w
  | Run i how =>
      match tasks w !! i with
      | Some t => run_task o t how (set_tasks (delete i (tasks w)) w)
      | None => w
      end
  end.

Definition run (o : Options) (es : list Event) (w : World) : World :=
  foldl (step o) w es.

Definition reachable (o : Options) (w : World) : Prop :=
  ∃ frag es, w = run o es (initial frag).

End Part000.

(** ** The revision of [part_002] *)

Module Part002.
Import Engine Events.

Section Load.
Context {P : Type} `{Store.Serialize P}.

(** [load] without a [try]: an error rejects the promise. *)
Definition load (force : bool) (now : Z) (s : Store.t P)
  : string * (Store.fetched P → Store.t P →
              Store.settled P * Store.t P * list (Store.effect P)) :=
  (Store.requestUrl force now s, λ r s1, Store.load_steps r s1).

End Load.

Definition literals : list string := ["home"; "latest"].

Definition normalizeRoute (routeCandidate : string) (s : State) : string :=
  if decide (routeCandidate = "home" ∨ routeCandidate = "latest") then routeCandidate
  else if decide (is_Some (articlesById s !! routeCandidate)) then routeCandidate
  else "home".

Definition paintActiveNav (route : string) (w : World) : World :=
  set_activeNav
    (if decide (route = "latest") then Some "latest"
     else if decide (route = "home") then Some "home"
     else None) w.

Definition renderNavigation (w : World) : World :=
  let navItems :=
    match content (st w) with
    | Some c =>
        default [ {| nav_id := "home"; label := "Home" |};
                  {| nav_id := "latest"; label := "Latest" |} ] (navigation c)
    | None => [ {| nav_id := "home"; label := "Home" |};
                {| nav_id := "latest"; label := "Latest" |} ]
    end in
  paintActiveNav (currentRoute (st w)) (set_navButtons (map nav_id navItems) w).

Definition renderHome (route : string) (w : World) : World :=
  set_mount (HomeView route (content (st w)) (articlesById (st w))) w.

Definition renderArticle (id : string) (w : World) : World :=
  match articlesById (st w) !! id with
  | None => renderHome "home" w
  | Some article => set_mount (ArticleView article) w
  end.

Definition routeRenderer (route : string) (w : World) : World :=
  if decide (route = "home" ∨ route = "latest") then
    renderHome route (set_routeTitle "Editorial Theater" w)
  else
    let kick := from_option kicker EmptyString (articlesById (st w) !! route) in
    renderArticle route (set_routeTitle (Str.or_else kick "Featured") w).

Definition renderRoute (o : Options) (route : string) (w : World) : World :=
  match content (st w) with
  | None => w
  | Some c =>
      if isNavigating (st w) then w
      else
        let w1 := with_st (set_currentRoute route) w in
        let w2 := paintActiveNav route w1 in
        let w3 := emit (Committed route c) w2 in
        let w4 := with_st (set_isNavigating true) w3 in
        enqueue (Frame route (animated o)) w4
  end.

Definition navigate (o : Options) (route : string) (w : World) : World :=
  let normalizedRoute := normalizeRoute route (st w) in
  let targetHash := "#" +:+ normalizedRoute in
  if decide (location_hash w ≠ targetHash) then assign_location_hash targetHash w
  else renderRoute o normalizedRoute w.

Definition handleRouteChange (o : Options) (w : World) : World :=
  let requestedRoute := parseHashRoute w in
  let normalizedRoute := normalizeRoute requestedRoute (st w) in
  if decide (normalizedRoute ≠ requestedRoute) then navigate o normalizedRoute w
  else renderRoute o normalizedRoute w.

Definition onContentUpdate (o : Options) (c : Snapshot) (w : World) : World :=
  let w1 := with_st (set_content c (index_articles (articles c))) w in
  let w2 := renderNavigation w1 in
  handleRouteChange o w2.

(** [routeRenderer] when the drawing function throws: the title is set
    first, and both [renderHome] and [renderArticle] end with the write of
    the mount, so the mount is left as it was. *)
Definition routeRenderer_thrown (route : string) (w : World) : World :=
  if decide (route = "home" ∨ route = "latest") then
    set_routeTitle "Editorial Theater" w
  else
    let kick := from_option kicker EmptyString (articlesById (st w) !! route) in
    set_routeTitle (Str.or_else kick "Featured") w.

(** As in [part_000]: a drawing that throws never reaches [resolve], so
    the guard stays up and nothing more is queued. *)
Definition run_task (o : Options) (t : Task) (how : settlement) (w : World) : World :=
  match t with
  | HashChange => handleRouteChange o w
  | Frame route animated =>
      match how with
      | Fulfilled =>
          if animated then enqueue Finished (routeRenderer route w)
          else clear_guard (routeRenderer route w)
      | Failed | FailedLate => routeRenderer_thrown route w
      end
  | Finished => clear_guard w
  end.

Definition step (o : Options) (w : World) (e : Event) : World :=
  match e with
  | Boot => handleRouteChange o w
  | Click route => navigate o route w
  | Address h => assign_location_hash h w
  | Content c => onContentUpdate o c w
  | Run i how =>
      match tasks w !! i with
      | Some t => run_task o t how (set_tasks (delete i (tasks w)) w)
      | None => w
      end
  end.

Definition run (o : Options) (es : list Event) (w : World) : World :=
  foldl (step o) w es.

Definition reachable (o : Options) (w : World) : Prop :=
  ∃ frag es, w = run o es (initial frag).

End Part002.

(** ** Sample data for the worked runs *)

Module Sample.
Import Engine Events.

Definition quoted (s : string) : string :=
  String Str.dquote (s +:+ String Str.dquote EmptyString).

Definition article_text (a : Article) : string :=
  "{" +:+ quoted "id" +:+ ":" +:+ quoted (id a) +:+ ","
  +:+ quoted "title" +:+ ":" +:+ quoted (title a) +:+ ","
  +:+ quoted "kicker" +:+ ":" +:+ quoted (kicker a) +:+ "}".

(** A stand-in for [JSON.stringify] on the fields of the model, for the
    sample runs of the store. *)
#[global] Instance snapshot_text : Store.Serialize Snapshot :=
  λ c, "{" +:+ quoted "meta" +:+ ":{" +:+ quoted "defaultRoute" +:+ ":"
       +:+ quoted (defaultRoute c) +:+ "}," +:+ quoted "articles" +:+ ":["
       +:+ String.concat "," (map article_text (articles c)) +:+ "]}".

Definition story_v1 : Article :=
  {| id := "story-1"; title := "Harbour plan"; kicker := "Investigations" |}.

Definition story_v2 : Article :=
  {| id := "story-1"; title := "Harbour plan approved"; kicker := "Investigations" |}.

Definition first_feed : Snapshot :=
  {| defaultRoute := "latest"; articles := [story_v1]; navigation := None |}.

Definition edited_feed : Snapshot :=
  {| defaultRoute := "latest"; articles := [story_v2]; navigation := None |}.

Definition emptied_feed : Snapshot :=
  {| defaultRoute := "latest"; articles := []; navigation := None |}.

Definition with_transitions : Options :=
  {| enableViewTransitions := true; startViewTransition_in_document := true;
     pollIntervalMs := 7000 |}.

Definition plain : Options :=
  {| enableViewTransitions := true; startViewTransition_in_document := false;
     pollIntervalMs := 8000 |}.

(** A store after a first load, with two observers. *)
Definition loaded_store : Store.t Snapshot :=
  Store.Make "content.json" 7000 [0; 1] (Some first_feed)
    (Store.stringify first_feed) None.

(** The page opened on the story and drawn, in each revision. *)
Definition reading_002 : World :=
  Part002.run with_transitions
    [Content first_feed; Run 0 Fulfilled; Run 0 Fulfilled] (initial "story-1").

Definition reading_000 : World :=
  Part000.run with_transitions
    [Content first_feed; Boot; Run 0 Fulfilled; Run 0 Fulfilled;
     Run 0 Fulfilled; Run 0 Fulfilled] (initial "story-1").

(** The story drawn and its view transition still running. *)
Definition animating_002 : World :=
  Part002.run with_transitions
    [Content first_feed; Run 0 Fulfilled] (initial "story-1").

Definition animating_000 : World :=
  Part000.run with_transitions
    [Content first_feed; Run 0 Fulfilled] (initial EmptyString).

(** The page opened on the story, whose drawing throws. In [part_000] the
    home view of the first snapshot is drawn to its end before [init]
    asks for the story. *)
Definition thrown_002 (o : Options) : World :=
  Part002.run o [Content first_feed; Run 0 Failed] (initial "story-1").

Definition thrown_000 (o : Options) : World :=
  Part000.run o
    [Content first_feed; Run 0 Fulfilled; Run 0 Fulfilled; Boot; Run 0 Failed]
    (initial "story-1").

End Sample.

(** ** The poll timer of the store ([start] and [stop], the same in both
    revisions) *)

Module Poll.
Import Store.

(** The interval timers of the window: the handles issued so far and the
    timers still armed, each with its period. [setInterval] issues handles
    greater than zero. *)
Record Host := {
  issued : nat;
  intervals : list (nat * Z)
}.

Definition setInterval (period : Z) (h : Host) : nat * Host :=
  let handle := S (issued h) in
  (handle, {| issued := handle; intervals := intervals h ++ [(handle, period)] |}).

Definition clearInterval (handle : nat) (h : Host) : Host :=
  {| issued := issued h;
     intervals := filter (λ p, fst p ≠ handle) (intervals h) |}.

(** [if (this.timerId)]: [null] and zero are falsy. *)
Definition armed (timer : option nat) : bool :=
  match timer with
  | Some (S _) => true
  | _ => false
  end.

Section WithPayload.
Context {P : Type}.

Definition set_timerId (timer : option nat) (s : t P) : t P :=
  Make (contentUrl s) (intervalMs s) (observers s) (data s) (signature s) timer.

Definition start (s : t P) (h : Host) : t P * Host :=
  if armed (timerId s) then (s, h)
  else
    let '(handle, h1) := setInterval (intervalMs s) h in
    (set_timerId (Some handle) s, h1).

Definition stop (s : t P) (h : Host) : t P * Host :=
  if negb (armed (timerId s)) then (s, h)
  else (set_timerId None s, clearInterval (default 0%nat (timerId s)) h).

(** Every armed timer carries a handle that was issued. *)
Definition issued_only (h : Host) : Prop :=
  ∀ handle period, (handle, period) ∈ intervals h → (handle ≤ issued h)%nat.

(** The calls a user of the store can make, and the responses that can
    arrive for its loads. *)
Inductive Call :=
| Subscribe (o : Observer)
| Unsubscribe (o : Observer)
| Arrive (r : fetched P).

End WithPayload.

Arguments Call : clear implicits.

Section Runs.
Context {P : Type} `{Serialize P}.

(** The store after a call; [resume] is the part of [load] that runs on
    arrival, of either revision. *)
Definition after_call
    (resume : fetched P → t P → settled P * t P * list (effect P))
    (s : t P) (c : Call P) : t P :=
  match c with
  | Subscribe o => snd (fst (subscribe o s))
  | Unsubscribe o => snd (unsubscribe o s)
  | Arrive r => snd (fst (resume r s))
  end.

Definition after_calls
    (resume : fetched P → t P → settled P * t P * list (effect P))
    (cs : list (Call P)) (s : t P) : t P :=
  foldl (after_call resume) s cs.

(** [resume] changes the store as [load_steps] does. *)
Definition resumes
    (resume : fetched P → t P → settled P * t P * list (effect P)) : Prop :=
  ∀ r s, snd (fst (resume r s)) = snd (fst (load_steps r s)).

(** The fingerprint held is the one of the snapshot held. *)
Definition signed (s : t P) : Prop :=
  match data s with
  | Some d => signature s = stringify d
  | None => signature s = EmptyString
  end.

(** The payload [p] of a successful response becomes the snapshot and
    every observer is called with it. *)
Definition taken
    (resume : fetched P → t P → settled P * t P * list (effect P))
    (s : t P) (status : nat) (p : P) : Prop :=
  ∃ s1, resume (Response status (Some p)) s
        = (Resolved (Some p), s1, map (λ o, Invoked o (Some p)) (observers s))
        ∧ data s1 = Some p ∧ signature s1 = stringify p.

End Runs.

End Poll.

(** ** Pieces of the templates: the heat widget, heading levels and the
    names of view transitions *)

Module Num.

(** What [Number(x)] gives: not a number, an infinity or a finite value;
    every finite double is a rational. *)
Inductive number :=
| NaN
| Infinity (negative : bool)
| Finite (q : QArith_base.Q).

Definition of_Z (z : Z) : number := Finite (QArith_base.inject_Z z).

(** [a || b] on numbers: [NaN] and zero are falsy. *)
Definition or_else (a b : number) : number :=
  match a with
  | NaN => b
  | Finite q => if QArith_base.Qeq_bool q (QArith_base.inject_Z 0) then b else a
  | Infinity _ => a
  end.

Definition Math_max (a b : number) : number :=
  match a, b with
  | NaN, _ | _, NaN => NaN
  | Infinity false, _ | _, Infinity false => Infinity false
  | Infinity true, other | other, Infinity true => other
  | Finite p, Finite q => if QArith_base.Qle_bool p q then b else a
  end.

Definition Math_min (a b : number) : number :=
  match a, b with
  | NaN, _ | _, NaN => NaN
  | Infinity true, _ | _, Infinity true => Infinity true
  | Infinity false, other | other, Infinity false => other
  | Finite p, Finite q => if QArith_base.Qle_bool p q then a else b
  end.

End Num.

Module Widgets.

(** A numeric field of the content: an integer, or nothing that
    [Number] turns into a number. *)
Definition number_or (field : option Z) (fallback : Z) : Z :=
  match field with
  | Some 0%Z | None => fallback    (* [Number(x) || fallback] *)
  | Some n => n
  end.

(** [level] of a heading block in [renderArticle]:
    [Math.min(Math.max(Number(block.level) || 2, 2), 4)], on the number
    that [Number(block.level)] gives. *)
Definition heading_level (level : Num.number) : Num.number :=
  Num.Math_min (Num.Math_max (Num.or_else level (Num.of_Z 2)) (Num.of_Z 2))
    (Num.of_Z 4).

Definition default_riskScale : list string :=
  ["Low"; "Moderate"; "High"; "Severe"].

(** [riskScale] of [renderHeatWidget]; [None] stands for a field that is
    not an array. *)
Definition riskScale (field : option (list string)) : list string :=
  default default_riskScale field.

(** [activeIndex] of [renderHeatWidget]. *)
Definition activeIndex (currentIndex : option Z) (scale : list string) : Z :=
  Z.min (Z.max (number_or currentIndex 0) 0)
        (Z.max (Z.of_nat (length scale) - 1) 0).

Record Rect := {
  x : Z; y : Z; width : Z; height : Z;
  active : bool
}.

(** The rectangles of [bars], by revision. *)
Definition bar_000 (active_index : Z) (index : nat) : Rect :=
  let isActive := bool_decide (Z.of_nat index ≤ active_index)%Z in
  {| x := Z.of_nat index * 25;
     y := if isActive then 20 else 40;
     width := 20;
     height := if isActive then 60 else 40;
     active := isActive |}.

Definition bar_002 (active_index : Z) (index : nat) : Rect :=
  {| x := Z.of_nat index * 25;
     y := 20 + Z.of_nat index * 6;
     width := 18;
     height := 65 - Z.of_nat index * 6;
     active := bool_decide (Z.of_nat index ≤ active_index)%Z |}.

Definition quoted (s : string) : string :=
  String Str.dquote (s +:+ String Str.dquote EmptyString).

(** The markup of one rectangle, by revision. *)
Definition rect_000 (index : nat) (r : Rect) : string :=
  let hue := (60 - Z.of_nat index * 20)%Z in
  let opacity := if active r then "0.9" else "0.15" in
  "<rect x=" +:+ quoted (pretty (x r)) +:+ " y=" +:+ quoted (pretty (y r))
  +:+ " width=" +:+ quoted (pretty (width r))
  +:+ " height=" +:+ quoted (pretty (height r))
  +:+ " rx=" +:+ quoted "4"
  +:+ " fill=" +:+ quoted ("hsla(" +:+ pretty hue +:+ ", 80%, 50%, " +:+ opacity +:+ ")")
  +:+ "></rect>".

Definition rect_002 (index : nat) (r : Rect) : string :=
  let strength := if active r then "0.85" else "0.2" in
  "<rect x=" +:+ quoted (pretty (x r)) +:+ " y=" +:+ quoted (pretty (y r))
  +:+ " width=" +:+ quoted (pretty (width r))
  +:+ " height=" +:+ quoted (pretty (height r))
  +:+ " fill=" +:+ quoted ("rgba(212,175,55," +:+ strength +:+ ")")
  +:+ "></rect>".

Definition bars_000 (currentIndex : option Z) (field : option (list string))
  : list Rect :=
  let scale := riskScale field in
  imap (λ index _, bar_000 (activeIndex currentIndex scale) index) scale.

Definition bars_002 (currentIndex : option Z) (field : option (list string))
  : list Rect :=
  let scale := riskScale field in
  imap (λ index _, bar_002 (activeIndex currentIndex scale) index) scale.

(** [bars], joined. *)
Definition bars_text_000 (currentIndex : option Z) (field : option (list string))
  : string :=
  String.concat EmptyString (imap rect_000 (bars_000 currentIndex field)).

Definition bars_text_002 (currentIndex : option Z) (field : option (list string))
  : string :=
  String.concat EmptyString (imap rect_002 (bars_002 currentIndex field)).

(** The characters kept by [id.replace(/[^a-z0-9-]/gi, "")] in [part_002]:
    letters of either case, digits and the hyphen. *)
Definition name_char (a : ascii) : bool :=
  let n := nat_of_ascii a in
  (Nat.leb 97 n && Nat.leb n 122) || (Nat.leb 65 n && Nat.leb n 90)
  || (Nat.leb 48 n && Nat.leb n 57) || Nat.eqb n 45.

Fixpoint strip_name (s : string) : string :=
  match s with
  | EmptyString => EmptyString
  | String a rest =>
      if name_char a then String a (strip_name rest) else strip_name rest
  end.

(** [transitionName] of [renderHome] and [renderArticle] in [part_002]. *)
Definition transitionName_002 (id : string) : string :=
  "hero-" +:+ strip_name id.

Fixpoint all_chars (p : ascii → bool) (s : string) : bool :=
  match s with
  | EmptyString => true
  | String a rest => p a && all_chars p rest
  end.

End Widgets.

(** ** Measures on the queue of callbacks *)

Module Queue.
Import Engine Events.

(** The callbacks a task still stands for: a frame with a view transition
    is followed by its [finished]. *)
Definition weight (t : Task) : nat :=
  match t with
  | Frame _ true => 2
  | _ => 1
  end.

Definition total_weight (l : list Task) : nat :=
  foldr (λ t n, (weight t + n)%nat) 0%nat l.

(** The commits under way. *)
Definition in_flight (w : World) : nat :=
  length (filter (λ t, pending_commit t = true) (tasks w)).


(** The navigation marks the current route when that is one of the
    literal routes that [paintActiveNav] knows, and nothing otherwise. *)
Definition nav_marks_current (paint : string → World → World) (w : World) : Prop :=
  content (st w) ≠ None → activeNav w = activeNav (paint (currentRoute (st w)) w).

(** The index, the current route and the mark in the navigation agree
    with the content and the trace. *)
Definition steady (paint : string → World → World) (w : World) : Prop :=
  indexed w ∧ current_is_last w ∧ nav_marks_current paint w.

Definition flights (l : list Task) : nat :=
  length (filter (λ t, pending_commit t = true) l).

(** One commit under way while the guard is up, none while it is down. *)
Definition single (w : World) : Prop :=
  in_flight w = if isNavigating (st w) then 1%nat else 0%nat.

(** At most one commit under way, and none while the guard is down. *)
Definition one_at_most (w : World) : Prop :=
  (in_flight w ≤ if isNavigating (st w) then 1 else 0)%nat.

(** The event runs a frame callback whose drawing function throws. *)
Definition throws (w : World) (e : Event) : bool :=
  match e with
  | Run i how =>
      match how, tasks w !! i with
      | Fulfilled, _ => false
      | _, Some (Frame _ _) => true
      | _, _ => false
      end
  | _ => false
  end.

(** No drawing function throws along the events, run from [w]. *)
Fixpoint draws_return (step : World → Event → World) (es : list Event)
    (w : World) : bool :=
  match es with
  | [] => true
  | e :: rest => negb (throws w e) && draws_return step rest (step w e)
  end.

(** The guard is up and no callback of a commit is pending: nothing is
    left that lowers the guard. *)
Definition jammed (w : World) : Prop :=
  isNavigating (st w) = true ∧ ∀ t, t ∈ tasks w → t = HashChange.

(** Jammed, with the mount and the trace as given. *)
Definition held (m : view) (l : list Entry) (w : World) : Prop :=
  jammed w ∧ mount w = m ∧ log w = l.


(** What running the oldest callback does when it belongs to a commit. *)
Definition runs_commit (step : World → Event → World) : Prop :=
  ∀ w t rest, tasks w = t :: rest → pending_commit t = true →
    let w' := step w (Run 0 Fulfilled) in
    currentRoute (st w') = currentRoute (st w)
    ∧ content (st w') = content (st w)
    ∧ match t with
      | Frame _ true => tasks w' = (rest ++ [Finished])%list
      | _ => tasks w' = rest ∧ isNavigating (st w') = false
      end.

(** What [navigate] and the [hashchange] that follows do, from a page at
    another address with nothing pending. *)
Definition through_address (navigate : string → World → World)
    (step : World → Event → World) (o : Options)
    (w : World) (c : Snapshot) (x r : string) : Prop :=
  let w1 := navigate x w in
  let w2 := step w1 (Run 0 Fulfilled) in
  (fragment w1 = r ∧ tasks w1 = [HashChange] ∧ log w1 = log w ∧ st w1 = st w)
  ∧ (currentRoute (st w2) = r ∧ isNavigating (st w2) = true
     ∧ tasks w2 = [Frame r (animated o)]
     ∧ log w2 = (log w ++ [Committed r c])%list ∧ fragment w2 = r).

(** The last element of a list that satisfies a test. *)
Definition last_with {A} (p : A → bool) (l : list A) : option A :=
  last (filter (λ a, p a = true) l).

End Queue.

(** * Properties *)

Import Engine Events Contract Queue.

(** ** Strings *)

Section StringFacts.
Import Str.

Lemma append_cons x (a b : string) : String x a +:+ b = String x (a +:+ b).
Proof. reflexivity. Qed.

Lemma append_nil_l (b : string) : EmptyString +:+ b = b.
Proof. reflexivity. Qed.

Lemma append_assoc (a b c : string) : (a +:+ b) +:+ c = a +:+ (b +:+ c).
Proof.
  induction a as [|x a IH]; [reflexivity |].
  rewrite !append_cons. f_equal. exact IH.
Qed.

Lemma includes_append c (a b : string) :
  includes c (a +:+ b) = includes c a || includes c b.
Proof.
  induction a as [|x a IH]; [reflexivity |].
  rewrite append_cons. simpl.
  destruct (decide (x = c)); [reflexivity | exact IH].
Qed.

Lemma replaceAll_append c rep (a b : string) :
  replaceAll c rep (a +:+ b) = replaceAll c rep a +:+ replaceAll c rep b.
Proof.
  induction a as [|x a IH]; [reflexivity |].
  rewrite append_cons. simpl.
  destruct (decide (x = c)).
  - rewrite IH. symmetry. apply append_assoc.
  - rewrite IH. reflexivity.
Qed.

Lemma prefix_nil (s : string) : String.prefix EmptyString s = true.
Proof. by destruct s. Qed.

End StringFacts.

(** ** [escapeHTML] *)

Section EscapeFacts.
Import Str Html.

Lemma escape_append (a b : string) : escape (a +:+ b) = escape a +:+ escape b.
Proof. unfold escape. by rewrite !replaceAll_append. Qed.

Lemma special_false a :
  special a = false →
  a ≠ amp ∧ a ≠ lt ∧ a ≠ gt ∧ a ≠ dquote ∧ a ≠ apos.
Proof.
  unfold special. rewrite !orb_false_iff, !bool_decide_eq_false. tauto.
Qed.

Lemma special_true a :
  special a = true →
  a = amp ∨ a = lt ∨ a = gt ∨ a = dquote ∨ a = apos.
Proof.
  unfold special. rewrite !orb_true_iff, !bool_decide_eq_true. tauto.
Qed.

Lemma escape_char_plain a : special a = false → escape_char a = String a EmptyString.
Proof.
  intros (? & ? & ? & ? & ?)%special_false. unfold escape_char.
  by rewrite !decide_False by assumption.
Qed.

Lemma escape_char_special a : special a = true → escape_char a ∈ entities.
Proof.
  intros [-> | [-> | [-> | [-> | ->]]]]%special_true;
    apply list_elem_of_In; simpl; tauto.
Qed.

Lemma escape_one (a : ascii) : escape (String a EmptyString) = escape_char a.
Proof.
  destruct (special a) eqn:Hs.
  - apply special_true in Hs as [-> | [-> | [-> | [-> | ->]]]]; reflexivity.
  - rewrite escape_char_plain by assumption.
    apply special_false in Hs as (? & ? & ? & ? & ?).
    unfold escape. simpl.
    repeat (rewrite decide_False by assumption; simpl). reflexivity.
Qed.

Lemma escape_is_pass (s : string) : escape s = escape_pass s.
Proof.
  induction s as [|a s IH]; [reflexivity |].
  change (String a s) with (String a EmptyString +:+ s).
  rewrite escape_append, escape_one, IH. reflexivity.
Qed.

Lemma amp_ok_cons a rest :
  amp_ok (String a rest)
  = (if decide (a = amp)
     then existsb (λ e, String.prefix e (String a rest)) entities else true)
    && amp_ok rest.
Proof. reflexivity. Qed.

Lemma amp_ok_sound s : amp_ok s = true → amp_starts_entity s.
Proof.
  intros Hok pre. revert s Hok.
  induction pre as [|p pre IH]; intros s Hok suf ->.
  - rewrite append_nil_l, amp_ok_cons in Hok.
    apply andb_true_iff in Hok as [Hok _].
    rewrite decide_True in Hok by reflexivity.
    apply existsb_exists in Hok as (e & Hin & Hp).
    exists e. split; [by apply list_elem_of_In | exact Hp].
  - rewrite append_cons, amp_ok_cons in Hok.
    apply andb_true_iff in Hok as [_ Hok]. by eapply IH.
Qed.

Lemma amp_ok_entity e s :
  e ∈ entities → amp_ok s = true → amp_ok (e +:+ s) = true.
Proof.
  unfold entities. intros He Hs.
  repeat (apply elem_of_cons in He as [-> | He]);
    [ .. | by apply elem_of_nil in He ];
    rewrite !append_cons, append_nil_l; cbn -[String.prefix amp_ok];
    simpl; rewrite ?prefix_nil; simpl; exact Hs.
Qed.

Lemma amp_ok_pass s : amp_ok (escape_pass s) = true.
Proof.
  induction s as [|a s IH]; [reflexivity |]. simpl.
  destruct (special a) eqn:Hs.
  - apply amp_ok_entity; [by apply escape_char_special | exact IH].
  - rewrite escape_char_plain by assumption.
    apply special_false in Hs as (? & _).
    rewrite append_cons, append_nil_l, amp_ok_cons, decide_False by assumption.
    exact IH.
Qed.

Lemma escape_char_excludes c a :
  c ∈ [lt; gt; dquote; apos] → includes c (escape_char a) = false.
Proof.
  intros Hc. destruct (special a) eqn:Hs.
  - apply special_true in Hs as [-> | [-> | [-> | [-> | ->]]]];
      repeat (apply elem_of_cons in Hc as [-> | Hc]);
      reflexivity || by apply elem_of_nil in Hc.
  - rewrite escape_char_plain by assumption.
    apply special_false in Hs as (? & ? & ? & ? & ?). simpl.
    rewrite decide_False; [reflexivity |]. intros ->.
    repeat (apply elem_of_cons in Hc as [-> | Hc]);
      congruence || by apply elem_of_nil in Hc.
Qed.

Lemma escape_pass_excludes c s :
  c ∈ [lt; gt; dquote; apos] → includes c (escape_pass s) = false.
Proof.
  intros Hc. induction s as [|a s IH]; [reflexivity |]. simpl.
  by rewrite includes_append, escape_char_excludes, IH.
Qed.

Lemma escape_pass_clean s : clean s → escape_pass s = s.
Proof.
  induction s as [|a s IH]; intros Hclean; [reflexivity |]. simpl.
  rewrite escape_char_plain, IH; [reflexivity | |].
  - intros c Hc. apply Hclean. simpl. by destruct (decide (a = c)).
  - apply Hclean. simpl. by rewrite decide_True.
Qed.

Lemma clean_plain : clean "Top Stories".
Proof.
  intros a Ha. destruct (special a) eqn:Hs; [| reflexivity].
  apply special_true in Hs as [-> | [-> | [-> | [-> | ->]]]]; discriminate Ha.
Qed.

End EscapeFacts.

Example escapeHTML_tag :
  Html.escapeHTML (Html.VStr "<a href='x'>R&D</a>")
  = "&lt;a href=&#39;x&#39;&gt;R&amp;D&lt;/a&gt;".
Proof. reflexivity. Qed.

Example escapeHTML_null : Html.escapeHTML Html.VNull = EmptyString.
Proof. reflexivity. Qed.

Example escapeHTML_number : Html.escapeHTML (Html.VNum 7) = "7".
Proof. vm_compute. reflexivity. Qed.

(** C10. Whatever value [escapeHTML] is given, its result holds none of
    the characters less-than, greater-than, double quote and apostrophe,
    every ampersand of the result starts one of the five entities, and a
    value whose text has none of the five characters comes back as that
    text. *)
Theorem escapeHTML_escapes (v : Html.value) :
  (∀ c, c ∈ [Html.lt; Html.gt; Str.dquote; Html.apos] →
        Str.includes c (Html.escapeHTML v) = false)
  ∧ Html.amp_starts_entity (Html.escapeHTML v)
  ∧ (Html.clean (Html.to_String (Html.nullish v (Html.VStr EmptyString))) →
     Html.escapeHTML v = Html.to_String (Html.nullish v (Html.VStr EmptyString))).
Proof.
  unfold Html.escapeHTML. rewrite escape_is_pass. split; [| split].
  - intros c Hc. by apply escape_pass_excludes.
  - apply amp_ok_sound, amp_ok_pass.
  - apply escape_pass_clean.
Qed.

Lemma escapeHTML_escapes_witness :
  Html.clean "Top Stories"
  ∧ Html.escapeHTML (Html.VStr "Top Stories") = "Top Stories".
Proof.
  split; [exact clean_plain |].
  exact (proj2 (proj2 (escapeHTML_escapes (Html.VStr "Top Stories"))) clean_plain).
Defined.

(** ** The content store *)

Section StoreFacts.
Import Store.
Context {P : Type} `{Serialize P}.

Lemma set_add_NoDup o (l : list Observer) : NoDup l → NoDup (set_add o l).
Proof.
  intros Hl. unfold set_add. case_decide; [exact Hl |].
  apply NoDup_app. split; [exact Hl |]. split.
  - intros x Hx ->%list_elem_of_singleton. contradiction.
  - apply NoDup_singleton.
Qed.

Lemma set_delete_NoDup o (l : list Observer) : NoDup l → NoDup (snd (set_delete o l)).
Proof. intros Hl. by apply NoDup_filter. Qed.

Lemma set_delete_absent o (l : list Observer) : o ∉ l → set_delete o l = (false, l).
Proof.
  intros Ho. unfold set_delete. f_equal.
  - by apply bool_decide_eq_false.
  - induction l as [|x l IH]; [reflexivity |].
    apply not_elem_of_cons in Ho as [Hne Ho].
    rewrite filter_cons_True by congruence. f_equal. by apply IH.
Qed.

Lemma unsubscribe_absent o (s : t P) :
  o ∉ observers s → unsubscribe o s = (false, s).
Proof.
  intros Ho. unfold unsubscribe. rewrite (set_delete_absent _ _ Ho).
  by destruct s.
Qed.

Lemma unsubscribe_gone o (s : t P) : o ∉ observers (snd (unsubscribe o s)).
Proof. unfold unsubscribe. simpl. rewrite list_elem_of_filter. tauto. Qed.

Lemma notify_NoDup (s : t P) : NoDup (observers s) → NoDup (notify s).
Proof.
  intros Hl. unfold notify. apply NoDup_fmap_2; [| exact Hl].
  intros a b Hab. by inversion Hab.
Qed.

(** What the resumed part of [load] does with a successful response, the
    same in both revisions. *)
Lemma load_steps_success status (q : P) (s : t P) :
  ok status = true →
  load_steps (Response status (Some q)) s
  = if decide (stringify q ≠ signature s)
    then (Resolved (Some q), set_snapshot (stringify q) q s,
          notify (set_snapshot (stringify q) q s))
    else (Resolved (data s), s, []).
Proof. intros Hok. unfold load_steps. rewrite Hok. simpl. by case_decide. Qed.

Lemma fingerprint_contract_of_steps
    (resume : fetched P → t P → settled P * t P * list (effect P))
    (s : t P) (status : nat) (p : P) :
  (∀ st q (s' : t P), ok st = true →
     resume (Response st (Some q)) s' = load_steps (Response st (Some q)) s') →
  ok status = true → NoDup (observers s) →
  fingerprint_contract resume s status p.
Proof.
  intros Hres Hok Hnd. split; [| split].
  - intros Heq. rewrite Hres, load_steps_success by assumption.
    by rewrite decide_False by tauto.
  - intros Hne. exists (set_snapshot (stringify p) p s).
    rewrite Hres, load_steps_success by assumption.
    rewrite decide_True by assumption.
    split; [reflexivity |]. split; [| by repeat split].
    apply (notify_NoDup (set_snapshot (stringify p) p s)). exact Hnd.
  - intros status2 p2 Hok2 Heq s1.
    rewrite Hres, load_steps_success by assumption.
    rewrite decide_False; [reflexivity |].
    intros Hne. apply Hne. rewrite Heq. subst s1.
    rewrite Hres, load_steps_success by assumption.
    case_decide; simpl; [reflexivity |].
    by destruct (decide (stringify p = signature s)).
Qed.

End StoreFacts.

Section StoreClaims.
Import Store.
Context {P : Type} `{Serialize P}.

(** C9. [subscribe] registers the observer and, when a snapshot is held,
    calls it at once, one time, with that snapshot; the closure it returns
    removes the observer and nothing else, and a second call of the closure
    answers [false] and leaves the store as it is. *)
Theorem subscribe_then_unsubscribe (o : Observer) (s : t P) :
  let '(unsub, s1, fx) := subscribe o s in
  (o ∈ observers s1 ∧ ∀ x, x ∈ observers s → x ∈ observers s1)
  ∧ fx = match data s with
         | Some d => [Invoked o (Some d)]
         | None => []
         end
  ∧ (∀ s2 : t P,
       (o ∉ observers (snd (unsub s2)))
       ∧ (∀ x, x ≠ o → (x ∈ observers (snd (unsub s2)) ↔ x ∈ observers s2))
       ∧ unsub (snd (unsub s2)) = (false, snd (unsub s2))).
Proof.
  simpl. split; [| split; [reflexivity |]].
  - unfold set_add. case_decide; [by split |]. split.
    + apply elem_of_app. right. by apply list_elem_of_singleton.
    + intros x Hx. apply elem_of_app. by left.
  - intros s2. split; [| split]; [unfold unsubscribe; simpl .. |].
    + rewrite list_elem_of_filter. tauto.
    + intros x Hx. rewrite list_elem_of_filter. tauto.
    + apply (unsubscribe_absent o (snd (unsubscribe o s2))), unsubscribe_gone.
Qed.

(** C1. When a successful response arrives, a payload whose fingerprint
    equals the stored one changes nothing and calls nobody; a payload with
    another fingerprint replaces the snapshot and every observer is called
    with it, once, in the order of subscription; the call resolves with the
    snapshot then held. Both revisions. *)
Theorem load_notifies_on_change (force : bool) (now : Z) (s0 s : t P)
    (status : nat) (p : P) :
  ok status = true →
  NoDup (observers s) →
  fingerprint_contract (snd (Part000.load force now s0)) s status p
  ∧ fingerprint_contract (snd (Part002.load force now s0)) s status p.
Proof.
  intros Hok Hnd. split; apply fingerprint_contract_of_steps; try assumption.
  - intros st q s' Hst. unfold Part000.load. cbn [snd].
    rewrite load_steps_success by assumption. by case_decide.
  - reflexivity.
Qed.

(** C2, as the code has it. A response that is not a success, a body that
    does not parse or a failed fetch leaves the snapshot and the fingerprint
    as they were; in [part_002] the promise is rejected with the failure, in
    [part_000] the failure is caught inside [load], a warning is logged and
    the promise resolves with the snapshot held before. *)
Theorem load_failure_keeps_snapshot (force : bool) (now : Z) (s0 s : t P)
    (r : fetched P) (e : failure) :
  (r = NetworkError ∧ e = NetworkFailure
   ∨ (∃ status body, r = Response status body ∧ ok status = false
                     ∧ e = FetchFailure status)
   ∨ (∃ status, r = Response status None ∧ ok status = true
                ∧ e = ParseFailure)) →
  snd (Part002.load force now s0) r s = (Rejected e, s, [])
  ∧ snd (Part000.load force now s0) r s = (Resolved (data s), s, [Warned e]).
Proof.
  intros [[-> ->] | [(status & body & -> & Hok & ->) | (status & -> & Hok & ->)]];
    simpl; unfold load_steps; rewrite ?Hok; simpl; by split.
Qed.

(** C8. A forced load takes the clock as the cache key, an unforced one the
    clock divided by the poll interval, rounded down; two unforced loads in
    one poll window ask for the same address. *)
Theorem cacheBust_by_window (s : t P) :
  (∀ now, cacheBust true now s = now)
  ∧ (∀ now, cacheBust false now s = (now / intervalMs s)%Z)
  ∧ (∀ force now,
       fst (Part000.load force now s)
       = contentUrl s +:+ separator s +:+ "v=" +:+ pretty (cacheBust force now s)
       ∧ fst (Part002.load force now s) = fst (Part000.load force now s))
  ∧ (∀ now1 now2,
       (now1 / intervalMs s = now2 / intervalMs s)%Z →
       cacheBust false now1 s = cacheBust false now2 s
       ∧ fst (Part000.load false now1 s) = fst (Part000.load false now2 s)
       ∧ fst (Part002.load false now1 s) = fst (Part002.load false now2 s)).
Proof.
  split; [reflexivity |]. split; [reflexivity |]. split; [by split |].
  intros now1 now2 Hw. simpl. unfold requestUrl, cacheBust. by rewrite Hw.
Qed.

End StoreClaims.

Lemma load_notifies_on_change_witness :
  Store.fingerprint_contract
    (snd (Part000.load false 1000 Sample.loaded_store))
    Sample.loaded_store 200 Sample.edited_feed
  ∧ Store.fingerprint_contract
      (snd (Part002.load false 1000 Sample.loaded_store))
      Sample.loaded_store 200 Sample.edited_feed.
Proof.
  apply (load_notifies_on_change false 1000%Z Sample.loaded_store
           Sample.loaded_store 200 Sample.edited_feed).
  - reflexivity.
  - apply (bool_decide_unpack _). vm_compute. reflexivity.
Defined.

Lemma load_failure_keeps_snapshot_witness :
  snd (Part002.load false 1000 Sample.loaded_store)
      (Store.Response 503 None) Sample.loaded_store
  = (Store.Rejected (Store.FetchFailure 503), Sample.loaded_store, [])
  ∧ snd (Part000.load false 1000 Sample.loaded_store)
        (Store.Response 503 None) Sample.loaded_store
    = (Store.Resolved (Some Sample.first_feed), Sample.loaded_store,
       [Store.Warned (Store.FetchFailure 503)]).
Proof.
  apply (load_failure_keeps_snapshot false 1000%Z Sample.loaded_store
           Sample.loaded_store (Store.Response 503 None)
           (Store.FetchFailure 503)).
  right. left. exists 503, None. repeat split.
Defined.

(** C2 as stated fails on [part_000]: a response with status 503 does not
    make the call fail, it resolves. *)
Lemma load_swallows_failure :
  ¬ Store.fails_with (Store.FetchFailure 503)
      (snd (Part000.load false 1000 Sample.loaded_store)
         (Store.Response 503 None) Sample.loaded_store).
Proof. unfold Store.fails_with. simpl. discriminate. Qed.

Example same_window_same_request :
  fst (Part002.load false 14001 Sample.loaded_store) = "content.json?v=2"
  ∧ fst (Part002.load false 20999 Sample.loaded_store) = "content.json?v=2"
  ∧ fst (Part002.load true 20999 Sample.loaded_store) = "content.json?v=20999".
Proof. vm_compute. tauto. Qed.

(** ** The route resolver *)

(** C6. [normalizeRoute] is idempotent, gives back its argument exactly
    when that is a literal route or a key of [articlesById], and gives
    [home] for every other token. Both revisions; as a function of the
    embedding it has a result for every token and state. *)
Theorem normalizeRoute_idempotent (x : string) (s : State) :
  (Part000.normalizeRoute (Part000.normalizeRoute x s) s = Part000.normalizeRoute x s
   ∧ (Part000.normalizeRoute x s = x
      ↔ x ∈ Part000.literals ∨ is_Some (articlesById s !! x))
   ∧ (¬ (x ∈ Part000.literals ∨ is_Some (articlesById s !! x)) →
      Part000.normalizeRoute x s = "home"))
  ∧ (Part002.normalizeRoute (Part002.normalizeRoute x s) s = Part002.normalizeRoute x s
     ∧ (Part002.normalizeRoute x s = x
        ↔ x ∈ Part002.literals ∨ is_Some (articlesById s !! x))
     ∧ (¬ (x ∈ Part002.literals ∨ is_Some (articlesById s !! x)) →
        Part002.normalizeRoute x s = "home")).
Proof.
  split.
  - assert (Hhome : "home" ∈ Part000.literals)
      by (apply elem_of_cons; by left).
    unfold Part000.normalizeRoute.
    repeat case_decide; repeat split; try tauto; congruence.
  - assert (Hlit : ∀ y, y ∈ Part002.literals ↔ y = "home" ∨ y = "latest").
    { intros y. unfold Part002.literals.
      rewrite !elem_of_cons, elem_of_nil. tauto. }
    rewrite !Hlit. unfold Part002.normalizeRoute.
    repeat case_decide; repeat split; try tauto; try congruence.
    all: intros; exfalso; tauto.
Qed.

Example ghost_article_falls_back :
  Part000.normalizeRoute "ghost-article" (st Sample.reading_000) = "home"
  ∧ Part002.normalizeRoute "ghost-article" (st Sample.reading_002) = "home"
  ∧ Part002.normalizeRoute "story-1" (st Sample.reading_002) = "story-1"
  ∧ parseHashRoute (set_fragment EmptyString Sample.reading_002) = "latest".
Proof. vm_compute. tauto. Qed.

Lemma index_articles_lookup (l : list Article) (r : string) :
  is_Some (index_articles l !! r) ↔ ∃ a, a ∈ l ∧ id a = r.
Proof.
  unfold index_articles.
  assert (Hgen : ∀ m : gmap string Article,
    is_Some (foldl (λ m a, <[id a := a]> m) m l !! r)
    ↔ is_Some (m !! r) ∨ ∃ a, a ∈ l ∧ id a = r).
  { induction l as [|a l IH]; intros m; simpl.
    - split; [by left |]. intros [Hm | (a & Ha & _)]; [exact Hm |].
      by apply elem_of_nil in Ha.
    - rewrite IH. split.
      + intros [Hm | (b & Hb & Hid)].
        * destruct (decide (id a = r)) as [Heq | Hne].
          -- right. exists a. split; [apply elem_of_cons; by left | exact Heq].
          -- left. by rewrite lookup_insert_ne in Hm.
        * right. exists b. split; [apply elem_of_cons; by right | exact Hid].
      + intros [Hm | (b & Hb & Hid)].
        * left. destruct (decide (id a = r)) as [Heq | Hne].
          -- rewrite Heq, lookup_insert_eq. by eexists.
          -- by rewrite lookup_insert_ne.
        * apply elem_of_cons in Hb as [-> | Hb].
          -- left. rewrite Hid, lookup_insert_eq. by eexists.
          -- right. by exists b. }
  rewrite Hgen. split; [| by right].
  intros [Hm | Hex]; [| exact Hex]. rewrite lookup_empty in Hm. by destruct Hm.
Qed.

Lemma normalizeRoute_again_000 x s :
  Part000.normalizeRoute (Part000.normalizeRoute x s) s = Part000.normalizeRoute x s.
Proof.
  assert (Hhome : "home" ∈ Part000.literals) by (apply elem_of_cons; by left).
  unfold Part000.normalizeRoute. repeat case_decide; try reflexivity; tauto.
Qed.

Lemma normalizeRoute_again_002 x s :
  Part002.normalizeRoute (Part002.normalizeRoute x s) s = Part002.normalizeRoute x s.
Proof.
  unfold Part002.normalizeRoute. repeat case_decide; try reflexivity; tauto.
Qed.



Lemma normalizeRoute_fixes_002 r s c :
  articlesById s = index_articles (articles c) →
  (Part002.normalizeRoute r s = r ↔ valid_route Part002.literals r c)
  ∧ (¬ valid_route Part002.literals r c → Part002.normalizeRoute r s = "home").
Proof.
  intros Hidx. unfold Part002.normalizeRoute, valid_route, Part002.literals.
  rewrite <- (index_articles_lookup (articles c) r), <- Hidx.
  rewrite !elem_of_cons, elem_of_nil.
  repeat case_decide; repeat split; try tauto; try congruence.
  all: intros; subst; intuition congruence.
Qed.

Lemma hash_home w : location_hash w = "#home" → fragment w = "home".
Proof.
  unfold location_hash. destruct (fragment w); [discriminate |].
  intros Heq. by inversion Heq.
Qed.

(** ** The guard and the pending callbacks *)

Lemma busy_more_tasks w w' :
  isNavigating (st w') = isNavigating (st w) →
  (∀ t, t ∈ tasks w → t ∈ tasks w') →
  busy w → busy w'.
Proof.
  intros Hnav Hsub Hb Hn. rewrite Hnav in Hn.
  destruct (Hb Hn) as (t & Ht & Hp). exists t. split; [by apply Hsub | exact Hp].
Qed.

Lemma busy_assign h w : busy w → busy (assign_location_hash h w).
Proof.
  intros Hb. unfold assign_location_hash. case_decide; [exact Hb |].
  eapply busy_more_tasks; [| | exact Hb]; [reflexivity |].
  intros t Ht. simpl. apply elem_of_app. by left.
Qed.

Lemma busy_enqueued t w : pending_commit t = true → busy (enqueue t w).
Proof.
  intros Hp _. exists t. split; [| exact Hp].
  simpl. apply elem_of_app. right. by apply list_elem_of_singleton.
Qed.

Lemma busy_cleared w : busy (clear_guard w).
Proof. intros Hn. discriminate Hn. Qed.

Lemma busy_without_hashchange i w :
  tasks w !! i = Some HashChange → busy w → busy (set_tasks (delete i (tasks w)) w).
Proof.
  intros Hi Hb Hn. destruct (Hb Hn) as (t & Ht & Hp). exists t. split; [| exact Hp].
  simpl. apply list_elem_of_lookup in Ht as [j Hj].
  destruct (decide (j = i)) as [-> | Hne]; [rewrite Hi in Hj; by inversion Hj; subst |].
  apply list_elem_of_lookup.
  destruct (decide (j < i)%nat) as [Hlt | Hge].
  - exists j. by rewrite list_lookup_delete_lt.
  - exists (pred j). rewrite list_lookup_delete_ge by lia.
    replace (S (pred j)) with j by lia. exact Hj.
Qed.

Section Busy000.
Import Part000.
Variable o : Options.

Lemma busy_renderRoute_000 r w : busy w → busy (renderRoute o r w).
Proof.
  intros Hb. unfold renderRoute. destruct (content (st w)); [| exact Hb].
  by apply busy_enqueued.
Qed.

Lemma busy_navigate_000 r w : busy w → busy (navigate o r w).
Proof.
  intros Hb. unfold navigate. case_decide;
    [by apply busy_assign | by apply busy_renderRoute_000].
Qed.

Lemma busy_handleRouteChange_000 w : busy w → busy (handleRouteChange o w).
Proof.
  intros Hb. unfold handleRouteChange. case_decide;
    [by apply busy_navigate_000 | by apply busy_renderRoute_000].
Qed.

Lemma busy_onContentUpdate_000 c w : busy w → busy (onContentUpdate o c w).
Proof.
  intros Hb. unfold onContentUpdate.
  set (w2 := renderNavigation _).
  assert (busy w2) as Hb2 by (eapply busy_more_tasks; [| | exact Hb]; done).
  destruct (negb _); [by apply busy_renderRoute_000 | exact Hb2].
Qed.

Lemma busy_step_000 e w : throws w e = false → busy w → busy (step o w e).
Proof.
  intros Hthrow Hb. destruct e as [| r | h | c | i how]; simpl.
  - by apply busy_handleRouteChange_000.
  - by apply busy_navigate_000.
  - by apply busy_assign.
  - by apply busy_onContentUpdate_000.
  - simpl in Hthrow.
    destruct (tasks w !! i) as [[| r a |] |] eqn:Hi; [| | | exact Hb]; simpl.
    + apply busy_handleRouteChange_000. by apply busy_without_hashchange.
    + destruct how; try discriminate Hthrow.
      destruct a; [by apply busy_enqueued | apply busy_cleared].
    + apply busy_cleared.
Qed.

Lemma busy_run_000 es w :
  draws_return (step o) es w = true → busy w → busy (run o es w).
Proof.
  unfold run. revert w. induction es as [|e es IH]; intros w Hd Hb; [exact Hb |].
  simpl in Hd |- *. apply andb_true_iff in Hd as [He Hd].
  apply negb_true_iff in He. apply IH; [exact Hd | by apply busy_step_000].
Qed.

End Busy000.

Section Busy002.
Import Part002.
Variable o : Options.

Lemma busy_renderRoute_002 r w : busy w → busy (renderRoute o r w).
Proof.
  intros Hb. unfold renderRoute. destruct (content (st w)); [| exact Hb].
  destruct (isNavigating (st w)) eqn:Hn; [exact Hb |].
  by apply busy_enqueued.
Qed.

Lemma busy_navigate_002 r w : busy w → busy (navigate o r w).
Proof.
  intros Hb. unfold navigate. case_decide;
    [by apply busy_assign | by apply busy_renderRoute_002].
Qed.

Lemma busy_handleRouteChange_002 w : busy w → busy (handleRouteChange o w).
Proof.
  intros Hb. unfold handleRouteChange. case_decide;
    [by apply busy_navigate_002 | by apply busy_renderRoute_002].
Qed.

Lemma busy_onContentUpdate_002 c w : busy w → busy (onContentUpdate o c w).
Proof.
  intros Hb. unfold onContentUpdate. apply busy_handleRouteChange_002.
  eapply busy_more_tasks; [| | exact Hb]; done.
Qed.

Lemma busy_step_002 e w : throws w e = false → busy w → busy (step o w e).
Proof.
  intros Hthrow Hb. destruct e as [| r | h | c | i how]; simpl.
  - by apply busy_handleRouteChange_002.
  - by apply busy_navigate_002.
  - by apply busy_assign.
  - by apply busy_onContentUpdate_002.
  - simpl in Hthrow.
    destruct (tasks w !! i) as [[| r a |] |] eqn:Hi; [| | | exact Hb]; simpl.
    + apply busy_handleRouteChange_002. by apply busy_without_hashchange.
    + destruct how; try discriminate Hthrow.
      destruct a; [by apply busy_enqueued | apply busy_cleared].
    + apply busy_cleared.
Qed.

Lemma busy_run_002 es w :
  draws_return (step o) es w = true → busy w → busy (run o es w).
Proof.
  unfold run. revert w. induction es as [|e es IH]; intros w Hd Hb; [exact Hb |].
  simpl in Hd |- *. apply andb_true_iff in Hd as [He Hd].
  apply negb_true_iff in He. apply IH; [exact Hd | by apply busy_step_002].
Qed.

End Busy002.

(** ** A drawing that throws *)

Lemma held_tasks m l w ts :
  (∀ t, t ∈ ts → t ∈ tasks w) → held m l w → held m l (set_tasks ts w).
Proof.
  intros Hsub ((Hn & Hq) & Hm & Hl). repeat split; try assumption.
  intros t Ht. apply Hq. by apply Hsub.
Qed.

Lemma held_assign m l h w : held m l w → held m l (assign_location_hash h w).
Proof.
  intros Hh. unfold assign_location_hash. case_decide; [exact Hh |].
  destruct Hh as ((Hn & Hq) & Hm & Hl). repeat split; try assumption.
  intros t. simpl. intros [Ht | Ht%list_elem_of_singleton]%elem_of_app;
    [by apply Hq | exact Ht].
Qed.

Section Jammed002.
Import Part002.
Variable o : Options.

Lemma jammed_renderRoute r w : jammed w → renderRoute o r w = w.
Proof.
  intros [Hn _]. unfold renderRoute. destruct (content (st w)); [| reflexivity].
  by rewrite Hn.
Qed.

Lemma held_navigate m l r w : held m l w → held m l (navigate o r w).
Proof.
  intros Hh. unfold navigate. case_decide; [by apply held_assign |].
  rewrite jammed_renderRoute; [exact Hh | apply Hh].
Qed.

Lemma held_handleRouteChange m l w : held m l w → held m l (handleRouteChange o w).
Proof.
  intros Hh. unfold handleRouteChange. case_decide; [by apply held_navigate |].
  rewrite jammed_renderRoute; [exact Hh | apply Hh].
Qed.

Lemma held_step m l e w : held m l w → held m l (step o w e).
Proof.
  intros Hh. destruct e as [| r | h | c | i how]; simpl.
  - by apply held_handleRouteChange.
  - by apply held_navigate.
  - by apply held_assign.
  - unfold onContentUpdate. apply held_handleRouteChange.
    destruct Hh as ((Hn & Hq) & Hm & Hl). repeat split; assumption.
  - destruct (tasks w !! i) as [t|] eqn:Hi; [| exact Hh].
    assert (Ht : t = HashChange).
    { destruct Hh as ((_ & Hq) & _). apply Hq.
      apply list_elem_of_lookup. by exists i. }
    subst t. simpl. apply held_handleRouteChange. apply held_tasks; [| exact Hh].
    intros t Ht. apply list_elem_of_lookup in Ht as [j Hj].
    apply list_elem_of_lookup.
    destruct (decide (j < i)%nat) as [Hlt | Hge].
    + exists j. by rewrite list_lookup_delete_lt in Hj.
    + exists (S j). by rewrite list_lookup_delete_ge in Hj by lia.
Qed.

Lemma held_run m l es w : held m l w → held m l (run o es w).
Proof.
  unfold run. revert w. induction es as [|e es IH]; intros w Hh; [exact Hh |].
  simpl. apply IH. by apply held_step.
Qed.

End Jammed002.

(** In [part_000] a snapshot that arrives while the guard is up is put in
    the state and nothing else happens. *)
Lemma stuck_content_000 o cs w :
  isNavigating (st w) = true →
  let w' := Part000.run o (map Content cs) w in
  isNavigating (st w') = true ∧ tasks w' = tasks w
  ∧ mount w' = mount w ∧ log w' = log w.
Proof.
  unfold Part000.run. revert w. induction cs as [|c cs IH]; intros w Hn; [done |].
  simpl. unfold Part000.onContentUpdate. simpl. rewrite Hn. simpl.
  set (w1 := Part000.renderNavigation _).
  destruct (IH w1 Hn) as (H1 & H2 & H3 & H4). by repeat split.
Qed.

(** C7 on the code. The story is open and its drawing throws inside the
    animation-frame callback, so [resolve] is not reached and [finally]
    never runs: the guard stays up with nothing pending, with or without
    view transitions. In [part_002] no later event lowers the guard, draws or
    commits anything. In [part_000] every snapshot that follows is left
    undrawn while the guard is up. *)
Lemma guard_stuck_after_throw (o : Options) :
  (Part002.reachable o (Sample.thrown_002 o)
   ∧ tasks (Sample.thrown_002 o) = []
   ∧ isNavigating (st (Sample.thrown_002 o)) = true)
  ∧ (∀ es, let w := Part002.run o es (Sample.thrown_002 o) in
       isNavigating (st w) = true
       ∧ mount w = mount (Sample.thrown_002 o)
       ∧ log w = log (Sample.thrown_002 o))
  ∧ (Part000.reachable o (Sample.thrown_000 o)
     ∧ tasks (Sample.thrown_000 o) = []
     ∧ isNavigating (st (Sample.thrown_000 o)) = true)
  ∧ (∀ cs, let w := Part000.run o (map Content cs) (Sample.thrown_000 o) in
       isNavigating (st w) = true
       ∧ tasks w = []
       ∧ mount w = mount (Sample.thrown_000 o)
       ∧ log w = log (Sample.thrown_000 o)).
Proof.
  assert (H2 : tasks (Sample.thrown_002 o) = []
               ∧ isNavigating (st (Sample.thrown_002 o)) = true).
  { split; reflexivity. }
  assert (H0 : tasks (Sample.thrown_000 o) = []
               ∧ isNavigating (st (Sample.thrown_000 o)) = true).
  { destruct o as [[|] [|] ms]; split; reflexivity. }
  split; [| split; [| split]].
  - split; [| exact H2]. by exists "story-1", [Content Sample.first_feed; Run 0 Failed].
  - intros es.
    destruct (held_run o (mount (Sample.thrown_002 o)) (log (Sample.thrown_002 o))
                es (Sample.thrown_002 o)) as ((Hn & _) & Hm & Hl).
    + destruct H2 as [Ht Hn]. split; [split; [exact Hn |] | split; reflexivity].
      intros t Hin. rewrite Ht in Hin. by apply elem_of_nil in Hin.
    + by repeat split.
  - split; [| exact H0].
    by exists "story-1",
      [Content Sample.first_feed; Run 0 Fulfilled; Run 0 Fulfilled; Boot;
       Run 0 Failed].
  - intros cs. destruct H0 as [Ht Hn].
    destruct (stuck_content_000 o cs (Sample.thrown_000 o) Hn) as (G1 & G2 & G3 & G4).
    rewrite Ht in G2. by repeat split.
Qed.

(** ** Committed routes *)

Lemma last_commit_app l1 l2 :
  last_commit (l1 ++ l2)
  = match last_commit l2 with Some r => Some r | None => last_commit l1 end.
Proof.
  induction l1 as [|e l1 IH]; simpl; [by destruct (last_commit l2) |].
  destruct e; rewrite ?IH; by destruct (last_commit l2).
Qed.

Lemma routeRenderer_drawn_000 r w : drawn w (Part000.routeRenderer r w).
Proof.
  unfold Part000.routeRenderer, Part000.renderArticle, Part000.renderHome, drawn.
  case_decide; [by eexists _, _ |].
  simpl. destruct (articlesById (st w) !! r); by eexists _, _.
Qed.

Lemma routeRenderer_drawn_002 r w : drawn w (Part002.routeRenderer r w).
Proof.
  unfold Part002.routeRenderer, Part002.renderArticle, Part002.renderHome, drawn.
  case_decide; [by eexists _, _ |].
  simpl. destruct (articlesById (st w) !! r); by eexists _, _.
Qed.

(** A drawing that throws has set the title and, in [part_000] only,
    may have written the mount. *)
Lemma thrown_title_002 r w :
  ∃ t, Part002.routeRenderer_thrown r w = set_routeTitle t w.
Proof. unfold Part002.routeRenderer_thrown. case_decide; by eexists. Qed.

Lemma thrown_cases_000 late r w :
  (∃ t, Part000.routeRenderer_thrown late r w = set_routeTitle t w)
  ∨ drawn w (Part000.routeRenderer_thrown late r w).
Proof.
  unfold Part000.routeRenderer_thrown. case_decide; [left; by eexists |].
  destruct (articlesById (st w) !! r) as [a|]; [| left; by eexists].
  destruct late; [right; by eexists _, _ | left; by eexists].
Qed.

Section Commits002.
Import Part002.
Variable o : Options.

Lemma normalizeRoute_valid_002 x w c :
  indexed w → content (st w) = Some c →
  valid_route literals (normalizeRoute x (st w)) c.
Proof.
  intros Hidx Hc.
  destruct (normalizeRoute_fixes_002 (normalizeRoute x (st w)) (st w) c (Hidx c Hc))
    as [Hfix _].
  apply Hfix. apply normalizeRoute_again_002.
Qed.

Lemma inv_renderRoute_002 r w :
  (∀ c, content (st w) = Some c → valid_route literals r c) →
  commit_invariant literals w → commit_invariant literals (renderRoute o r w).
Proof.
  intros Hr (Hidx & Hval & Hcur). unfold renderRoute.
  destruct (content (st w)) as [c|] eqn:Hc; [| done].
  destruct (isNavigating (st w)); [done |].
  split; [| split].
  - intros c' Hc'. simpl in Hc' |- *. apply Hidx. congruence.
  - intros r' c'. simpl. rewrite elem_of_app, list_elem_of_singleton.
    intros [Hin | Heq]; [by apply Hval |]. inversion Heq; subst. by apply Hr.
  - unfold current_is_last. simpl. by rewrite last_commit_app.
Qed.

Lemma inv_assign_002 h w : commit_invariant literals w → commit_invariant literals (assign_location_hash h w).
Proof. unfold assign_location_hash. by case_decide. Qed.

Lemma inv_navigate_002 r w : commit_invariant literals w → commit_invariant literals (navigate o r w).
Proof.
  intros Hinv. unfold navigate. case_decide; [by apply inv_assign_002 |].
  apply inv_renderRoute_002; [| exact Hinv].
  intros c Hc. apply normalizeRoute_valid_002; [apply Hinv | exact Hc].
Qed.

Lemma inv_handleRouteChange_002 w : commit_invariant literals w → commit_invariant literals (handleRouteChange o w).
Proof.
  intros Hinv. unfold handleRouteChange. case_decide; [by apply inv_navigate_002 |].
  apply inv_renderRoute_002; [| exact Hinv].
  intros c Hc. apply normalizeRoute_valid_002; [apply Hinv | exact Hc].
Qed.

Lemma inv_onContentUpdate_002 c w : commit_invariant literals w → commit_invariant literals (onContentUpdate o c w).
Proof.
  intros (Hidx & Hval & Hcur). unfold onContentUpdate.
  apply inv_handleRouteChange_002. split; [| split]; [| exact Hval | exact Hcur].
  intros c' Hc'. simpl in Hc' |- *. by inversion Hc'.
Qed.

Lemma inv_drawn_002 w w' : drawn w w' → commit_invariant literals w → commit_invariant literals w'.
Proof.
  intros (t & v & ->) (Hidx & Hval & Hcur). split; [| split].
  - exact Hidx.
  - intros r c. simpl. rewrite elem_of_app, list_elem_of_singleton.
    intros [Hin | Heq]; [by apply Hval | discriminate Heq].
  - unfold current_is_last. simpl. by rewrite last_commit_app.
Qed.

Lemma inv_clear_guard_002 w : commit_invariant literals w → commit_invariant literals (clear_guard w).
Proof.
  intros (Hidx & Hval & Hcur). split; [| split].
  - exact Hidx.
  - intros r c. simpl. rewrite elem_of_app, list_elem_of_singleton.
    intros [Hin | Heq]; [by apply Hval | discriminate Heq].
  - unfold current_is_last. simpl. by rewrite last_commit_app.
Qed.

Lemma inv_step_002 e w : commit_invariant literals w → commit_invariant literals (step o w e).
Proof.
  intros Hinv. destruct e as [| r | h | c | i how]; simpl.
  - by apply inv_handleRouteChange_002.
  - by apply inv_navigate_002.
  - by apply inv_assign_002.
  - by apply inv_onContentUpdate_002.
  - destruct (tasks w !! i) as [[| r a |] |]; [| | | exact Hinv]; simpl.
    + by apply inv_handleRouteChange_002.
    + destruct how; [destruct a | |].
      * change (commit_invariant literals
                  (routeRenderer r (set_tasks (delete i (tasks w)) w))).
        eapply (inv_drawn_002 (set_tasks _ w));
          [apply routeRenderer_drawn_002 | exact Hinv].
      * apply inv_clear_guard_002.
        eapply (inv_drawn_002 (set_tasks _ w));
          [apply routeRenderer_drawn_002 | exact Hinv].
      * destruct (thrown_title_002 r (set_tasks (delete i (tasks w)) w)) as [t ->].
        exact Hinv.
      * destruct (thrown_title_002 r (set_tasks (delete i (tasks w)) w)) as [t ->].
        exact Hinv.
    + by apply (inv_clear_guard_002 (set_tasks _ w)).
Qed.

Lemma inv_reachable_002 w : reachable o w → commit_invariant literals w.
Proof.
  intros (frag & es & ->). unfold run.
  induction es as [|e es IH] using rev_ind.
  - split; [| split]; [intros c Hc; discriminate Hc | | reflexivity].
    intros r c Hin. by apply elem_of_nil in Hin.
  - rewrite foldl_app. simpl. by apply inv_step_002.
Qed.

End Commits002.

(** In [part_002] the invariant on committed routes holds: every commit of
    every reachable state was for a route valid against the content held
    at the commit, and [currentRoute] is the route of the latest commit
    ([home] before the first). *)
Theorem part002_commits_valid_routes (o : Options) (w : World) :
  Part002.reachable o w →
  (∀ r c, Committed r c ∈ log w → valid_route Part002.literals r c)
  ∧ currentRoute (st w) = default "home" (last_commit (log w)).
Proof.
  intros Hr. destruct (inv_reachable_002 o w Hr) as (_ & Hv & Hc). by split.
Qed.

Lemma part002_commits_valid_routes_witness :
  currentRoute (st Sample.reading_002)
  = default "home" (last_commit (log Sample.reading_002)).
Proof.
  apply (part002_commits_valid_routes Sample.with_transitions Sample.reading_002).
  exists "story-1",
    [Content Sample.first_feed; Run 0 Fulfilled; Run 0 Fulfilled].
  reflexivity.
Defined.

(** C4 on [part_000]. With the story open and drawn, a snapshot without
    that story arrives: [onContentUpdate] commits the route of the story
    again, against the snapshot that no longer has it. *)
Lemma part000_commits_stale_route :
  let w := Part000.step Sample.with_transitions Sample.reading_000
             (Content Sample.emptied_feed) in
  Part000.reachable Sample.with_transitions w
  ∧ currentRoute (st w) = "story-1"
  ∧ content (st w) = Some Sample.emptied_feed
  ∧ last (log w) = Some (Committed "story-1" Sample.emptied_feed)
  ∧ ¬ valid_route Part000.literals "story-1" Sample.emptied_feed.
Proof.
  split; [| split; [| split; [| split]]].
  - exists "story-1",
      [Content Sample.first_feed; Boot; Run 0 Fulfilled; Run 0 Fulfilled;
       Run 0 Fulfilled; Run 0 Fulfilled; Content Sample.emptied_feed].
    vm_compute. reflexivity.
  - vm_compute. reflexivity.
  - vm_compute. reflexivity.
  - vm_compute. reflexivity.
  - unfold valid_route, Part000.literals. simpl.
    rewrite !elem_of_cons, elem_of_nil.
    intros [[H | [H | [H | []]]] | (a & Ha & _)]; try discriminate H.
    by apply elem_of_nil in Ha.
Qed.

(** ** Renders that meet a transition in flight *)







Section TwoCalls.

Local Arguments with_st f w /.
Local Arguments set_currentRoute r s /.
Local Arguments set_isNavigating b s /.
Local Arguments set_activeNav a w /.
Local Arguments set_tasks l w /.
Local Arguments enqueue t w /.
Local Arguments emit e w /.
Local Arguments clear_guard w /.
Local Arguments Part000.paintActiveNav route w /.
Local Arguments Part002.paintActiveNav route w /.


End TwoCalls.



(** ** Content updates *)

(** C5, as the code has it. [onContentUpdate] puts the new snapshot and the
    index built from it in the state. With no transition in flight,
    [part_000] commits the current route again when it is still valid, and
    [part_002] commits the route read from the address when it is valid and
    otherwise sends the address to [home]. With a transition in flight
    neither revision draws or commits anything and nothing is queued for
    later ([part_002] may still send the address to [home]). *)
Theorem onContentUpdate_refresh (o : Options) (w : World) (c : Snapshot) :
  let w0 := Part000.onContentUpdate o c w in
  let w2 := Part002.onContentUpdate o c w in
  let cur := currentRoute (st w) in
  let r := requested w c in
  (content (st w0) = Some c
   ∧ articlesById (st w0) = index_articles (articles c)
   ∧ content (st w2) = Some c
   ∧ articlesById (st w2) = index_articles (articles c))
  ∧ (isNavigating (st w) = false →
     (valid_route Part000.literals cur c →
        currentRoute (st w0) = cur
        ∧ tasks w0 = (tasks w ++ [Frame cur (animated o)])%list
        ∧ log w0 = (log w ++ [Committed cur c])%list)
     ∧ (valid_route Part002.literals r c →
        currentRoute (st w2) = r
        ∧ tasks w2 = (tasks w ++ [Frame r (animated o)])%list
        ∧ log w2 = (log w ++ [Committed r c])%list)
     ∧ (¬ valid_route Part002.literals r c →
        fragment w2 = "home"
        ∧ tasks w2 = (tasks w ++ [HashChange])%list
        ∧ currentRoute (st w2) = cur
        ∧ log w2 = log w))
  ∧ (isNavigating (st w) = true →
     (tasks w0 = tasks w ∧ log w0 = log w ∧ mount w0 = mount w
      ∧ currentRoute (st w0) = cur)
     ∧ (log w2 = log w ∧ mount w2 = mount w ∧ currentRoute (st w2) = cur
        ∧ (valid_route Part002.literals r c → tasks w2 = tasks w)
        ∧ ∀ t, t ∈ tasks w2 → t ∈ tasks w ∨ t = HashChange)).
Proof.
  intros w0 w2 cur r.
  set (wc := Part002.renderNavigation
               (with_st (set_content c (index_articles (articles c))) w)).
  assert (Hparse : parseHashRoute wc = r) by reflexivity.
  assert (Hidx : articlesById (st wc) = index_articles (articles c)) by reflexivity.
  destruct (normalizeRoute_fixes_002 r (st wc) c Hidx) as [Hfix Hhome].
  assert (Hh : Part002.normalizeRoute "home" (st wc) = "home") by reflexivity.
  assert (Hw2 : w2 = Part002.handleRouteChange o wc) by reflexivity.
  assert (Hvalid2 : valid_route Part002.literals r c →
            w2 = Part002.renderRoute o r wc).
  { intros Hv. rewrite Hw2. unfold Part002.handleRouteChange.
    rewrite Hparse, (proj2 Hfix Hv). by rewrite decide_False by (by intros []). }
  assert (Hinvalid2 : ¬ valid_route Part002.literals r c →
            w2 = enqueue HashChange (set_fragment "home" wc)
            ∧ fragment w ≠ "home").
  { intros Hv. rewrite Hw2. unfold Part002.handleRouteChange.
    rewrite Hparse, (Hhome Hv).
    assert (Hne : "home" ≠ r).
    { intros <-. apply Hv. left. unfold Part002.literals.
      apply elem_of_cons. by left. }
    rewrite decide_True by exact Hne.
    unfold Part002.navigate. rewrite Hh.
    assert (Hfrag : fragment w ≠ "home").
    { intros Hf. apply Hne. unfold r, requested, location_hash.
      rewrite Hf. reflexivity. }
    assert (Hloc : location_hash wc ≠ "#home").
    { intros Hl. apply Hfrag. exact (hash_home wc Hl). }
    rewrite decide_True by exact Hloc.
    unfold assign_location_hash. simpl Str.strip_hash.
    rewrite decide_False by (intros Heq; apply Hfrag; symmetry; exact Heq).
    split; [reflexivity | exact Hfrag]. }
  assert (Hdec : valid_route Part002.literals r c
                 ∨ ¬ valid_route Part002.literals r c).
  { destruct (decide (Part002.normalizeRoute r (st wc) = r)) as [He | He];
      [left | right]; by rewrite <- Hfix. }
  split; [| split].
  - split; [| split; [| split]].
    + unfold w0, Part000.onContentUpdate, Part000.renderRoute. simpl.
      destruct (isNavigating (st w)); reflexivity.
    + unfold w0, Part000.onContentUpdate, Part000.renderRoute. simpl.
      destruct (isNavigating (st w)); reflexivity.
    + destruct Hdec as [Hv | Hv].
      * rewrite (Hvalid2 Hv). unfold Part002.renderRoute. simpl.
        destruct (isNavigating (st w)); reflexivity.
      * rewrite (proj1 (Hinvalid2 Hv)). reflexivity.
    + destruct Hdec as [Hv | Hv].
      * rewrite (Hvalid2 Hv). unfold Part002.renderRoute. simpl.
        destruct (isNavigating (st w)); reflexivity.
      * rewrite (proj1 (Hinvalid2 Hv)). reflexivity.
  - intros Hidle. split; [| split].
    + intros _. unfold w0, Part000.onContentUpdate, Part000.renderRoute. simpl.
      rewrite Hidle. simpl. repeat split.
    + intros Hv. rewrite (Hvalid2 Hv). unfold Part002.renderRoute. simpl.
      rewrite Hidle. simpl. repeat split.
    + intros Hv. rewrite (proj1 (Hinvalid2 Hv)). simpl. repeat split.
  - intros Hnav. split.
    + unfold w0, Part000.onContentUpdate. simpl. rewrite Hnav. simpl.
      repeat split.
    + destruct Hdec as [Hv | Hv].
      * rewrite (Hvalid2 Hv). unfold Part002.renderRoute. simpl.
        rewrite Hnav. simpl. repeat split. intros t Ht. by left.
      * rewrite (proj1 (Hinvalid2 Hv)). simpl. repeat split; [tauto |].
        intros t [Ht | Ht%list_elem_of_singleton]%elem_of_app; [by left | by right].
Qed.

Lemma onContentUpdate_refresh_witness :
  tasks (Part002.onContentUpdate Sample.with_transitions Sample.edited_feed
           Sample.animating_002)
  = tasks Sample.animating_002.
Proof.
  refine (proj1 (proj2 (proj2 (proj2 (proj2 (proj2 (proj2
    (onContentUpdate_refresh Sample.with_transitions Sample.animating_002
       Sample.edited_feed)) _))))) _).
  - reflexivity.
  - right. exists Sample.story_v2. split; [| reflexivity].
    apply elem_of_cons. by left.
Defined.

(** C5 as stated fails on both revisions: a snapshot that arrives while
    the view transition runs is not drawn once the transition has ended. *)
Lemma refresh_lost :
  ¬ refresh_kept (Part002.step Sample.with_transitions)
      (Part002.onContentUpdate Sample.with_transitions)
      Sample.animating_002 Sample.edited_feed
  ∧ ¬ refresh_kept (Part000.step Sample.with_transitions)
      (Part000.onContentUpdate Sample.with_transitions)
      Sample.animating_000 Sample.edited_feed.
Proof.
  split; intros Hk; destruct (Hk eq_refl) as [_ Hn];
    specialize (Hn 1%nat eq_refl); vm_compute in Hn; lia.
Qed.

(** * Further properties of the code *)

Import Queue.

(** ** The store *)

Section StoreRuns.
Import Store Poll.
Context {P : Type} `{Serialize P}.

Lemma set_add_again o (l : list Observer) : set_add o (set_add o l) = set_add o l.
Proof.
  unfold set_add. destruct (decide (o ∈ l)) as [Hin | Hin].
  - by rewrite decide_True.
  - rewrite decide_True; [reflexivity |].
    apply elem_of_app. right. by apply list_elem_of_singleton.
Qed.

(** What an arriving response leaves alone, in both revisions. *)
Lemma load_steps_frame (r : fetched P) (s : t P) :
  let s1 := snd (fst (load_steps r s)) in
  contentUrl s1 = contentUrl s ∧ intervalMs s1 = intervalMs s
  ∧ observers s1 = observers s ∧ timerId s1 = timerId s.
Proof.
  unfold load_steps. destruct r as [| status [q |]]; simpl; [done | |].
  - destruct (ok status); simpl; [| done]. by case_decide.
  - by destruct (ok status).
Qed.

Lemma load_000_store (force : bool) (now : Z) (s0 : t P) r s :
  snd (fst (snd (Part000.load force now s0) r s)) = snd (fst (load_steps r s)).
Proof.
  unfold Part000.load. cbn [snd].
  by destruct (load_steps r s) as [[[d | e] s2] fx].
Qed.

Lemma after_call_NoDup resume c (s : t P) :
  resumes resume → NoDup (observers s) → NoDup (observers (after_call resume s c)).
Proof.
  intros Hres Hnd. destruct c as [o | o | r]; simpl.
  - by apply set_add_NoDup.
  - unfold unsubscribe. simpl. by apply NoDup_filter.
  - rewrite Hres. by rewrite (proj1 (proj2 (proj2 (load_steps_frame r s)))).
Qed.

Lemma after_calls_NoDup resume cs (s : t P) :
  resumes resume → NoDup (observers s) →
  NoDup (observers (after_calls resume cs s)).
Proof.
  intros Hres. revert s. induction cs as [|c cs IH]; intros s Hnd; [exact Hnd |].
  simpl. apply IH. by apply after_call_NoDup.
Qed.

Lemma load_steps_signed r (s : t P) : signed s → signed (snd (fst (load_steps r s))).
Proof.
  intros Hs. unfold load_steps. destruct r as [| status [q |]]; simpl; [done | |].
  - destruct (ok status); simpl; [| done]. by case_decide.
  - by destruct (ok status).
Qed.

Lemma after_calls_signed resume cs (s : t P) :
  resumes resume → signed s → signed (after_calls resume cs s).
Proof.
  intros Hres. revert s. induction cs as [|c cs IH]; intros s Hs; [exact Hs |].
  simpl. apply IH. destruct c as [o | o | r]; simpl; try exact Hs.
  rewrite Hres. by apply load_steps_signed.
Qed.

(** However a store is used after its construction, no observer is in the
    set twice, so a change calls each observer once; subscribing an observer
    that is already in the set leaves the set as it is. *)
Theorem observers_registered_once (url : string) (ms : Z)
    (cs : list (Call P)) (o : Observer) (s : t P) :
  NoDup (observers (after_calls (snd (Part000.load false 0 (constructor url ms))) cs
                      (constructor url ms)))
  ∧ NoDup (observers (after_calls (snd (Part002.load false 0 (constructor url ms))) cs
                        (constructor url ms)))
  ∧ observers (snd (fst (subscribe o (snd (fst (subscribe o s))))))
    = observers (snd (fst (subscribe o s))).
Proof.
  split; [| split].
  - apply after_calls_NoDup; [| apply NoDup_nil_2].
    intros r s'. apply load_000_store.
  - apply after_calls_NoDup; [| apply NoDup_nil_2]. by intros r s'.
  - simpl. apply set_add_again.
Qed.

(** However a store is used after its construction, the fingerprint it
    holds is the serialization of the snapshot it holds, and the empty
    string while it holds none. *)
Theorem fingerprint_matches_snapshot (url : string) (ms : Z) (cs : list (Call P)) :
  signed (after_calls (snd (Part000.load false 0 (constructor url ms))) cs
            (constructor url ms))
  ∧ signed (after_calls (snd (Part002.load false 0 (constructor url ms))) cs
              (constructor url ms)).
Proof.
  split; apply after_calls_signed; try reflexivity.
  - intros r s'. apply load_000_store.
  - by intros r s'.
Qed.

(** A store that holds no snapshot, however it was reached from the
    constructor, takes any payload whose serialization is not empty: the
    payload becomes the snapshot and every observer is called with it. *)
Theorem first_load_is_taken (url : string) (ms : Z) (cs : list (Call P))
    (status : nat) (p : P) :
  let resume0 := snd (Part000.load false 0 (constructor url ms)) in
  let resume2 := snd (Part002.load false 0 (constructor url ms)) in
  let s0 := after_calls resume0 cs (constructor url ms) in
  let s2 := after_calls resume2 cs (constructor url ms) in
  ok status = true →
  stringify p ≠ EmptyString →
  (data s0 = None → taken resume0 s0 status p)
  ∧ (data s2 = None → taken resume2 s2 status p).
Proof.
  intros resume0 resume2 s0 s2 Hok Hne.
  assert (Hsig : ∀ s : t P, signed s → data s = None → stringify p ≠ signature s).
  { intros s Hs Hd. unfold signed in Hs. rewrite Hd in Hs. by rewrite Hs. }
  split; intros Hd.
  - exists (set_snapshot (stringify p) p s0). split; [| by split].
    unfold resume0 at 1, Part000.load. cbn [snd].
    rewrite load_steps_success by assumption.
    rewrite decide_True; [reflexivity |].
    apply Hsig; [| exact Hd]. apply after_calls_signed; [| reflexivity].
    intros r s'. apply load_000_store.
  - exists (set_snapshot (stringify p) p s2). split; [| by split].
    unfold resume2 at 1, Part002.load. cbn [snd].
    rewrite load_steps_success by assumption.
    rewrite decide_True; [reflexivity |].
    apply Hsig; [| exact Hd]. apply after_calls_signed; [| reflexivity].
    by intros r s'.
Qed.

(** Forced loads at different instants never ask for the same address,
    and unforced loads ask for the same address exactly when they fall in
    the same poll window. *)
Theorem request_addresses (s : t P) (now1 now2 : Z) :
  (requestUrl true now1 s = requestUrl true now2 s ↔ now1 = now2)
  ∧ (requestUrl false now1 s = requestUrl false now2 s
     ↔ (now1 / intervalMs s = now2 / intervalMs s)%Z).
Proof.
  assert (Hinj : ∀ a b : Z,
    contentUrl s +:+ separator s +:+ "v=" +:+ pretty a
    = contentUrl s +:+ separator s +:+ "v=" +:+ pretty b → a = b).
  { intros a b Heq.
    apply (inj (String.app (contentUrl s))) in Heq.
    apply (inj (String.app (separator s))) in Heq.
    apply (inj (String.app "v=")) in Heq.
    by apply (inj pretty) in Heq. }
  unfold requestUrl, cacheBust. split; split.
  - apply Hinj.
  - by intros ->.
  - apply Hinj.
  - by intros ->.
Qed.

End StoreRuns.

Section Timer.
Import Store Poll.
Context {P : Type}.

Lemma clearInterval_fresh handle (h : Host) :
  issued_only h → (issued h < handle)%nat →
  filter (λ p : nat * Z, fst p ≠ handle) (intervals h) = intervals h.
Proof.
  intros Hh Hlt. unfold issued_only in Hh.
  induction (intervals h) as [|[i p] l IH]; [reflexivity |].
  rewrite filter_cons_True.
  - f_equal. apply IH. intros i' p' Hin. apply (Hh i' p'). by apply elem_of_cons; right.
  - simpl. specialize (Hh i p). assert (i ≤ issued h)%nat; [| lia].
    apply Hh. apply elem_of_cons. by left.
Qed.

(** The life of the poll timer: [start] on a started store and [stop] on
    a stopped one change nothing; [start] on a stopped store arms one
    interval timer with the period [intervalMs], and the [stop] that
    follows disarms exactly that timer. *)
Theorem start_stop_lifecycle (s : t P) (h : Host) :
  (let '(s1, h1) := start s h in
   start s1 h1 = (s1, h1) ∧ armed (timerId s1) = true)
  ∧ (let '(s1, h1) := stop s h in
     stop s1 h1 = (s1, h1) ∧ armed (timerId s1) = false)
  ∧ (armed (timerId s) = false →
     let '(s1, h1) := start s h in
     intervals h1 = (intervals h ++ [(S (issued h), intervalMs s)])%list
     ∧ (issued_only h →
        let '(s2, h2) := stop s1 h1 in
        intervals h2 = intervals h ∧ timerId s2 = None)).
Proof.
  split; [| split].
  - unfold start. destruct (armed (timerId s)) eqn:Ha; simpl.
    + by rewrite Ha.
    + done.
  - unfold stop. destruct (armed (timerId s)) eqn:Ha; simpl.
    + done.
    + by rewrite Ha.
  - intros Ha. unfold start. rewrite Ha. simpl. split; [reflexivity |].
    intros Hh. unfold stop. simpl. split; [| reflexivity].
    rewrite filter_app, filter_cons_False, filter_nil by (simpl; tauto).
    rewrite app_nil_r. apply clearInterval_fresh; [exact Hh | lia].
Qed.

End Timer.

(** ** [escapeHTML], further *)

Section EscapeMore.
Import Str Html.

Lemma length_append (a b : string) :
  String.length (a +:+ b) = (String.length a + String.length b)%nat.
Proof.
  induction a as [|x a IH]; [reflexivity |].
  rewrite append_cons. simpl. by rewrite IH.
Qed.

Lemma escape_char_length a : (1 ≤ String.length (escape_char a))%nat.
Proof.
  destruct (special a) eqn:Hs.
  - apply special_true in Hs as [-> | [-> | [-> | [-> | ->]]]]; simpl; lia.
  - rewrite escape_char_plain by assumption. simpl. lia.
Qed.

(** The first character of what a character is rewritten to, and the
    rest. *)
Lemma escape_char_head a :
  ∃ tl, escape_char a = String (if special a then amp else a) tl
        ∧ (special a = false → tl = EmptyString)
        ∧ includes amp tl = false.
Proof.
  destruct (special a) eqn:Hs.
  - apply special_true in Hs as [-> | [-> | [-> | [-> | ->]]]];
      eexists; (split; [reflexivity |]); split; (discriminate || reflexivity).
  - rewrite escape_char_plain by assumption. by exists EmptyString.
Qed.

Lemma escape_char_inj_app a b (x y : string) :
  escape_char a +:+ x = escape_char b +:+ y → a = b ∧ x = y.
Proof.
  destruct (special a) eqn:Ha, (special b) eqn:Hb.
  - apply special_true in Ha as [-> | [-> | [-> | [-> | ->]]]];
      apply special_true in Hb as [-> | [-> | [-> | [-> | ->]]]];
      intros Heq; try (split; [reflexivity |]);
      try (by inversion Heq); exfalso; inversion Heq.
  - rewrite (escape_char_plain b) by assumption.
    apply special_false in Hb as (Hb & _).
    apply special_true in Ha as [-> | [-> | [-> | [-> | ->]]]];
      intros Heq; exfalso; inversion Heq; by subst.
  - rewrite (escape_char_plain a) by assumption.
    apply special_false in Ha as (Ha & _).
    apply special_true in Hb as [-> | [-> | [-> | [-> | ->]]]];
      intros Heq; exfalso; inversion Heq; by subst.
  - rewrite (escape_char_plain a), (escape_char_plain b) by assumption.
    intros Heq. by inversion Heq.
Qed.

Lemma escape_pass_nil s : escape_pass s = EmptyString → s = EmptyString.
Proof.
  destruct s as [|a s]; [reflexivity |]. simpl. intros Heq.
  pose proof (escape_char_length a) as Hl.
  apply (f_equal String.length) in Heq. rewrite length_append in Heq.
  simpl in Heq. lia.
Qed.

Lemma escape_pass_inj s1 s2 : escape_pass s1 = escape_pass s2 → s1 = s2.
Proof.
  revert s2. induction s1 as [|a s1 IH]; intros s2 Heq.
  - symmetry. apply escape_pass_nil. by rewrite <- Heq.
  - destruct s2 as [|b s2].
    + by apply escape_pass_nil in Heq.
    + simpl in Heq. apply escape_char_inj_app in Heq as [-> Heq].
      f_equal. by apply IH.
Qed.

Lemma escape_pass_length s : (String.length s ≤ String.length (escape_pass s))%nat.
Proof.
  induction s as [|a s IH]; [reflexivity |]. simpl.
  rewrite length_append. pose proof (escape_char_length a). lia.
Qed.

(** Escaping loses nothing: two texts with the same escaped form are the
    same text. *)
Theorem escape_injective (s1 s2 : string) :
  escapeHTML (VStr s1) = escapeHTML (VStr s2) → s1 = s2.
Proof. unfold escapeHTML. simpl. rewrite !escape_is_pass. apply escape_pass_inj. Qed.

Lemma escape_injective_witness :
  escapeHTML (VStr "a<b") = escapeHTML (VStr "a<b") ∧ "a<b" = "a<b".
Proof.
  split; [reflexivity |]. apply (escape_injective "a<b" "a<b"). reflexivity.
Defined.

(** Escaping works piece by piece and never shortens a text; the length
    is kept exactly when the text comes back unchanged. *)
Theorem escape_pieces (a b : string) :
  escapeHTML (VStr (a +:+ b)) = escapeHTML (VStr a) +:+ escapeHTML (VStr b)
  ∧ (String.length a ≤ String.length (escapeHTML (VStr a)))%nat
  ∧ (String.length (escapeHTML (VStr a)) = String.length a
     ↔ escapeHTML (VStr a) = a).
Proof.
  unfold escapeHTML. simpl.
  split; [apply escape_append |]. rewrite escape_is_pass. split.
  - apply escape_pass_length.
  - split; [| by intros ->].
    induction a as [|x a IH]; [reflexivity |]. simpl.
    rewrite length_append. intros Hlen.
    pose proof (escape_pass_length a) as Hl.
    pose proof (escape_char_length x) as Hx.
    destruct (escape_char_head x) as (tl & Hhd & Hplain & _).
    assert (Htl : tl = EmptyString).
    { rewrite Hhd in Hlen. simpl in Hlen. destruct tl; [reflexivity |].
      simpl in Hlen. lia. }
    destruct (special x) eqn:Hs.
    + exfalso. subst tl.
      apply special_true in Hs as [-> | [-> | [-> | [-> | ->]]]]; discriminate Hhd.
    + rewrite Hhd, Htl. rewrite append_cons, append_nil_l. f_equal.
      apply IH. rewrite Hhd, Htl in Hlen. simpl in Hlen. lia.
Qed.

End EscapeMore.

(** ** The controller, further *)

(** ** The index *)

Lemma index_articles_snoc (l : list Article) (a : Article) :
  index_articles (l ++ [a]) = <[id a := a]> (index_articles l).
Proof. unfold index_articles. by rewrite foldl_app. Qed.

(** [new Map(...)] keeps, for each id, the last article that carries it. *)
Theorem index_keeps_last (l : list Article) (r : string) :
  index_articles l !! r = last_with (λ a, bool_decide (id a = r)) l.
Proof.
  induction l as [|a l IH] using rev_ind; [reflexivity |].
  rewrite index_articles_snoc. unfold last_with in *. rewrite filter_app.
  destruct (decide (id a = r)) as [Heq | Hne].
  - rewrite Heq, lookup_insert_eq.
    rewrite filter_cons_True by (by apply bool_decide_eq_true).
    rewrite filter_nil. by rewrite last_snoc.
  - rewrite lookup_insert_ne by exact Hne.
    rewrite filter_cons_False; [| by rewrite bool_decide_eq_true].
    rewrite filter_nil, app_nil_r. exact IH.
Qed.

(** ** Invariants of both revisions *)

Lemma steady_assign paint h w :
  (∀ r x y, activeNav (paint r x) = activeNav (paint r y)) →
  steady paint w → steady paint (assign_location_hash h w).
Proof.
  intros Hp Hs. unfold assign_location_hash. case_decide; [exact Hs |].
  destruct Hs as (Hidx & Hcur & Hnav).
  split; [| split]; [exact Hidx | exact Hcur |].
  intros Hc. simpl. rewrite (Hnav Hc). apply Hp.
Qed.

Lemma steady_drawn paint w w' :
  (∀ r x y, activeNav (paint r x) = activeNav (paint r y)) →
  drawn w w' → steady paint w → steady paint w'.
Proof.
  intros Hp (t & v & ->) (Hidx & Hcur & Hnav). split; [| split].
  - exact Hidx.
  - unfold current_is_last. simpl. by rewrite last_commit_app.
  - intros Hc. simpl. rewrite (Hnav Hc). apply Hp.
Qed.

Lemma steady_title paint t w :
  (∀ r x y, activeNav (paint r x) = activeNav (paint r y)) →
  steady paint w → steady paint (set_routeTitle t w).
Proof.
  intros Hp (Hidx & Hcur & Hnav). split; [| split]; [exact Hidx | exact Hcur |].
  intros Hc. simpl. rewrite (Hnav Hc). apply Hp.
Qed.

Lemma steady_clear_guard paint w :
  (∀ r x y, activeNav (paint r x) = activeNav (paint r y)) →
  steady paint w → steady paint (clear_guard w).
Proof.
  intros Hp (Hidx & Hcur & Hnav). split; [| split].
  - exact Hidx.
  - unfold current_is_last. simpl. by rewrite last_commit_app.
  - intros Hc. simpl. rewrite (Hnav Hc). apply Hp.
Qed.

Lemma steady_tasks paint l w :
  (∀ r x y, activeNav (paint r x) = activeNav (paint r y)) →
  steady paint w → steady paint (set_tasks l w).
Proof.
  intros Hp (Hidx & Hcur & Hnav). split; [| split]; [exact Hidx | exact Hcur |].
  intros Hc. simpl. rewrite (Hnav Hc). apply Hp.
Qed.

Section Steady000.
Import Part000.
Variable o : Options.

Lemma paint_000 r x y : activeNav (paintActiveNav r x) = activeNav (paintActiveNav r y).
Proof. reflexivity. Qed.

Lemma steady_renderRoute_000 r w :
  steady paintActiveNav w → steady paintActiveNav (renderRoute o r w).
Proof.
  intros (Hidx & Hcur & Hnav). unfold renderRoute.
  destruct (content (st w)) as [c|] eqn:Hc; [| done].
  split; [| split].
  - intros c' Hc'. simpl in Hc' |- *. apply Hidx. congruence.
  - unfold current_is_last. simpl. by rewrite last_commit_app.
  - intros _. reflexivity.
Qed.

Lemma steady_navigate_000 r w :
  steady paintActiveNav w → steady paintActiveNav (navigate o r w).
Proof.
  intros Hs. unfold navigate. case_decide;
    [by apply steady_assign; [apply paint_000 |] | by apply steady_renderRoute_000].
Qed.

Lemma steady_handleRouteChange_000 w :
  steady paintActiveNav w → steady paintActiveNav (handleRouteChange o w).
Proof.
  intros Hs. unfold handleRouteChange. case_decide;
    [by apply steady_navigate_000 | by apply steady_renderRoute_000].
Qed.

Lemma steady_onContentUpdate_000 c w :
  steady paintActiveNav w → steady paintActiveNav (onContentUpdate o c w).
Proof.
  intros (Hidx & Hcur & Hnav). unfold onContentUpdate.
  set (w2 := renderNavigation _).
  assert (Hs2 : steady paintActiveNav w2).
  { split; [| split]; [| exact Hcur | by intros _].
    intros c' Hc'. simpl in Hc' |- *. by inversion Hc'. }
  destruct (negb _); [by apply steady_renderRoute_000 | exact Hs2].
Qed.

Lemma steady_step_000 e w :
  steady paintActiveNav w → steady paintActiveNav (step o w e).
Proof.
  intros Hs. destruct e as [| r | h | c | i how]; simpl.
  - by apply steady_handleRouteChange_000.
  - by apply steady_navigate_000.
  - by apply steady_assign; [apply paint_000 |].
  - by apply steady_onContentUpdate_000.
  - pose proof (steady_tasks paintActiveNav (delete i (tasks w)) w paint_000 Hs) as Hs'.
    destruct (tasks w !! i) as [[| r a |] |]; [| | | exact Hs]; simpl.
    + by apply steady_handleRouteChange_000.
    + destruct how; [destruct a | |].
      * apply (steady_tasks _ _ (routeRenderer r (set_tasks _ w)) paint_000).
        eapply steady_drawn;
          [apply paint_000 | apply routeRenderer_drawn_000 | exact Hs'].
      * apply steady_clear_guard; [apply paint_000 |].
        eapply steady_drawn;
          [apply paint_000 | apply routeRenderer_drawn_000 | exact Hs'].
      * destruct (thrown_cases_000 false r (set_tasks (delete i (tasks w)) w))
          as [[t ->] | Hd].
        -- by apply steady_title; [apply paint_000 |].
        -- eapply steady_drawn; [apply paint_000 | exact Hd | exact Hs'].
      * destruct (thrown_cases_000 true r (set_tasks (delete i (tasks w)) w))
          as [[t ->] | Hd].
        -- by apply steady_title; [apply paint_000 |].
        -- eapply steady_drawn; [apply paint_000 | exact Hd | exact Hs'].
    + by apply steady_clear_guard; [apply paint_000 |].
Qed.

Lemma steady_reachable_000 w : reachable o w → steady paintActiveNav w.
Proof.
  intros (frag & es & ->). unfold run.
  induction es as [|e es IH] using rev_ind.
  - split; [| split]; [intros c Hc; discriminate Hc | reflexivity |].
    intros Hc. by destruct Hc.
  - rewrite foldl_app. simpl. by apply steady_step_000.
Qed.

End Steady000.

Section Steady002.
Import Part002.
Variable o : Options.

Lemma paint_002 r x y : activeNav (paintActiveNav r x) = activeNav (paintActiveNav r y).
Proof. reflexivity. Qed.

Lemma steady_renderRoute_002 r w :
  steady paintActiveNav w → steady paintActiveNav (renderRoute o r w).
Proof.
  intros (Hidx & Hcur & Hnav). unfold renderRoute.
  destruct (content (st w)) as [c|] eqn:Hc; [| done].
  destruct (isNavigating (st w)); [done |].
  split; [| split].
  - intros c' Hc'. simpl in Hc' |- *. apply Hidx. congruence.
  - unfold current_is_last. simpl. by rewrite last_commit_app.
  - intros _. reflexivity.
Qed.

Lemma steady_navigate_002 r w :
  steady paintActiveNav w → steady paintActiveNav (navigate o r w).
Proof.
  intros Hs. unfold navigate. case_decide;
    [by apply steady_assign; [apply paint_002 |] | by apply steady_renderRoute_002].
Qed.

Lemma steady_handleRouteChange_002 w :
  steady paintActiveNav w → steady paintActiveNav (handleRouteChange o w).
Proof.
  intros Hs. unfold handleRouteChange. case_decide;
    [by apply steady_navigate_002 | by apply steady_renderRoute_002].
Qed.

Lemma steady_onContentUpdate_002 c w :
  steady paintActiveNav w → steady paintActiveNav (onContentUpdate o c w).
Proof.
  intros (Hidx & Hcur & Hnav). unfold onContentUpdate.
  apply steady_handleRouteChange_002.
  split; [| split]; [| exact Hcur | by intros _].
  intros c' Hc'. simpl in Hc' |- *. by inversion Hc'.
Qed.

Lemma steady_step_002 e w :
  steady paintActiveNav w → steady paintActiveNav (step o w e).
Proof.
  intros Hs. destruct e as [| r | h | c | i how]; simpl.
  - by apply steady_handleRouteChange_002.
  - by apply steady_navigate_002.
  - by apply steady_assign; [apply paint_002 |].
  - by apply steady_onContentUpdate_002.
  - pose proof (steady_tasks paintActiveNav (delete i (tasks w)) w paint_002 Hs) as Hs'.
    destruct (tasks w !! i) as [[| r a |] |]; [| | | exact Hs]; simpl.
    + by apply steady_handleRouteChange_002.
    + destruct how; [destruct a | |].
      * apply (steady_tasks _ _ (routeRenderer r (set_tasks _ w)) paint_002).
        eapply steady_drawn;
          [apply paint_002 | apply routeRenderer_drawn_002 | exact Hs'].
      * apply steady_clear_guard; [apply paint_002 |].
        eapply steady_drawn;
          [apply paint_002 | apply routeRenderer_drawn_002 | exact Hs'].
      * destruct (thrown_title_002 r (set_tasks (delete i (tasks w)) w)) as [t ->].
        by apply steady_title; [apply paint_002 |].
      * destruct (thrown_title_002 r (set_tasks (delete i (tasks w)) w)) as [t ->].
        by apply steady_title; [apply paint_002 |].
    + by apply steady_clear_guard; [apply paint_002 |].
Qed.

Lemma steady_reachable_002 w : reachable o w → steady paintActiveNav w.
Proof.
  intros (frag & es & ->). unfold run.
  induction es as [|e es IH] using rev_ind.
  - split; [| split]; [intros c Hc; discriminate Hc | reflexivity |].
    intros Hc. by destruct Hc.
  - rewrite foldl_app. simpl. by apply steady_step_002.
Qed.

End Steady002.

(** In every state either revision can reach, the index is the one built
    from the content held, [currentRoute] is the route of the latest
    commit ([home] before the first), and once content is held the
    navigation marks what [paintActiveNav] marks for [currentRoute]. *)
Theorem state_stays_consistent (o : Options) (w : World) :
  (Part000.reachable o w → steady Part000.paintActiveNav w)
  ∧ (Part002.reachable o w → steady Part002.paintActiveNav w).
Proof. split; [apply steady_reachable_000 | apply steady_reachable_002]. Qed.

(** ** One commit at a time in [part_002] *)

Lemma flights_app l1 l2 : flights (l1 ++ l2) = (flights l1 + flights l2)%nat.
Proof. unfold flights. by rewrite filter_app, length_app. Qed.

Lemma flights_cons t l :
  flights (t :: l) = ((if pending_commit t then 1 else 0) + flights l)%nat.
Proof.
  unfold flights. destruct (pending_commit t) eqn:Hp.
  - by rewrite filter_cons_True by exact Hp.
  - by rewrite filter_cons_False by (by rewrite Hp).
Qed.

Lemma flights_delete i t l :
  l !! i = Some t →
  flights l = ((if pending_commit t then 1 else 0) + flights (delete i l))%nat.
Proof.
  intros Hi. rewrite delete_take_drop.
  rewrite <- (take_drop_middle l i t Hi) at 1.
  rewrite !flights_app, flights_cons. lia.
Qed.

Section Single002.
Import Part002.
Variable o : Options.

Lemma single_renderRoute r w : single w → single (renderRoute o r w).
Proof.
  unfold single, in_flight. intros Hs. unfold renderRoute.
  destruct (content (st w)); [| exact Hs].
  destruct (isNavigating (st w)) eqn:Hn; [by rewrite Hn |].
  simpl. fold (flights (tasks w ++ [Frame r (animated o)])).
  rewrite flights_app. fold (flights (tasks w)) in Hs. rewrite Hs. reflexivity.
Qed.

Lemma single_assign h w : single w → single (assign_location_hash h w).
Proof.
  unfold single, in_flight, assign_location_hash. intros Hs.
  case_decide; [exact Hs |]. simpl.
  fold (flights (tasks w ++ [HashChange])). rewrite flights_app.
  fold (flights (tasks w)) in Hs. rewrite Hs. unfold flights. simpl. lia.
Qed.

Lemma single_navigate r w : single w → single (navigate o r w).
Proof.
  intros Hs. unfold navigate. case_decide;
    [by apply single_assign | by apply single_renderRoute].
Qed.

Lemma single_handleRouteChange w : single w → single (handleRouteChange o w).
Proof.
  intros Hs. unfold handleRouteChange. case_decide;
    [by apply single_navigate | by apply single_renderRoute].
Qed.

Lemma single_step e w : throws w e = false → single w → single (step o w e).
Proof.
  intros Hthrow Hs. destruct e as [| r | h | c | i how]; simpl.
  - by apply single_handleRouteChange.
  - by apply single_navigate.
  - by apply single_assign.
  - unfold onContentUpdate. by apply single_handleRouteChange.
  - simpl in Hthrow. destruct (tasks w !! i) as [t |] eqn:Hi; [| exact Hs].
    pose proof (flights_delete i t (tasks w) Hi) as Hd.
    unfold single, in_flight in Hs. fold (flights (tasks w)) in Hs.
    destruct t as [| r a |]; simpl in Hd.
    + apply single_handleRouteChange. unfold single, in_flight. simpl.
      fold (flights (delete i (tasks w))). lia.
    + destruct how; try discriminate Hthrow.
      destruct (routeRenderer_drawn_002 r (set_tasks (delete i (tasks w)) w))
        as (t & v & Hdr).
      unfold run_task. rewrite Hdr. destruct a.
      * unfold single, in_flight. simpl.
        fold (flights (delete i (tasks w) ++ [Finished])). rewrite flights_app.
        destruct (isNavigating (st w)); unfold flights at 2; simpl; lia.
      * unfold single, in_flight. simpl.
        fold (flights (delete i (tasks w))).
        destruct (isNavigating (st w)); lia.
    + unfold single, in_flight. simpl. fold (flights (delete i (tasks w))).
      destruct (isNavigating (st w)); lia.
Qed.

Lemma single_run es w :
  draws_return (step o) es w = true → single w → single (run o es w).
Proof.
  unfold run. revert w. induction es as [|e es IH]; intros w Hd Hs; [exact Hs |].
  simpl in Hd |- *. apply andb_true_iff in Hd as [He Hd].
  apply negb_true_iff in He. apply IH; [exact Hd | by apply single_step].
Qed.

Lemma bounded_renderRoute r w : one_at_most w → one_at_most (renderRoute o r w).
Proof.
  unfold one_at_most, in_flight. intros Hs. unfold renderRoute.
  destruct (content (st w)); [| exact Hs].
  destruct (isNavigating (st w)) eqn:Hn; [by rewrite Hn |].
  simpl. fold (flights (tasks w ++ [Frame r (animated o)])).
  rewrite flights_app. fold (flights (tasks w)) in Hs.
  unfold flights at 2. simpl. lia.
Qed.

Lemma bounded_assign h w : one_at_most w → one_at_most (assign_location_hash h w).
Proof.
  unfold one_at_most, in_flight, assign_location_hash. intros Hs.
  case_decide; [exact Hs |]. simpl.
  fold (flights (tasks w ++ [HashChange])). rewrite flights_app.
  fold (flights (tasks w)) in Hs. unfold flights at 2. simpl. lia.
Qed.

Lemma bounded_navigate r w : one_at_most w → one_at_most (navigate o r w).
Proof.
  intros Hs. unfold navigate. case_decide;
    [by apply bounded_assign | by apply bounded_renderRoute].
Qed.

Lemma bounded_handleRouteChange w :
  one_at_most w → one_at_most (handleRouteChange o w).
Proof.
  intros Hs. unfold handleRouteChange. case_decide;
    [by apply bounded_navigate | by apply bounded_renderRoute].
Qed.

Lemma bounded_step e w : one_at_most w → one_at_most (step o w e).
Proof.
  intros Hs. destruct e as [| r | h | c | i how]; simpl.
  - by apply bounded_handleRouteChange.
  - by apply bounded_navigate.
  - by apply bounded_assign.
  - unfold onContentUpdate. by apply bounded_handleRouteChange.
  - destruct (tasks w !! i) as [t |] eqn:Hi; [| exact Hs].
    pose proof (flights_delete i t (tasks w) Hi) as Hd.
    unfold one_at_most, in_flight in Hs. fold (flights (tasks w)) in Hs.
    destruct t as [| r a |]; simpl in Hd.
    + apply bounded_handleRouteChange. unfold one_at_most, in_flight. simpl.
      fold (flights (delete i (tasks w))). lia.
    + assert (Hup : isNavigating (st w) = true ∧ flights (delete i (tasks w)) = 0%nat)
        by (destruct (isNavigating (st w)); split; (reflexivity || lia)).
      destruct Hup as [Hn H0].
      destruct how; [| |].
      * destruct (routeRenderer_drawn_002 r (set_tasks (delete i (tasks w)) w))
          as (t & v & Hdr).
        unfold run_task. rewrite Hdr. destruct a.
        -- unfold one_at_most, in_flight. simpl.
           fold (flights (delete i (tasks w) ++ [Finished])). rewrite flights_app.
           rewrite Hn, H0. unfold flights. simpl. lia.
        -- unfold one_at_most, in_flight. simpl.
           fold (flights (delete i (tasks w))). lia.
      * unfold run_task.
        destruct (thrown_title_002 r (set_tasks (delete i (tasks w)) w)) as [t ->].
        unfold one_at_most, in_flight. simpl.
        fold (flights (delete i (tasks w))). rewrite Hn. lia.
      * unfold run_task.
        destruct (thrown_title_002 r (set_tasks (delete i (tasks w)) w)) as [t ->].
        unfold one_at_most, in_flight. simpl.
        fold (flights (delete i (tasks w))). rewrite Hn. lia.
    + unfold one_at_most, in_flight. simpl. fold (flights (delete i (tasks w))).
      destruct (isNavigating (st w)); lia.
Qed.

End Single002.

(** In [part_002] at most one commit is under way, and none while the
    guard is down: the frame and [finished] callbacks pending are at most
    one, and none when [isNavigating] is false. As long as no drawing
    throws there is exactly one while the guard is up. *)
Theorem one_commit_in_flight (o : Options) (frag : string) (es : list Event) :
  let w := Part002.run o es (initial frag) in
  (in_flight w ≤ if isNavigating (st w) then 1 else 0)%nat
  ∧ (draws_return (Part002.step o) es (initial frag) = true →
     in_flight w = if isNavigating (st w) then 1%nat else 0%nat).
Proof.
  split.
  - unfold Part002.run.
    induction es as [|e es IH] using rev_ind; [unfold in_flight; simpl; lia |].
    rewrite foldl_app. simpl. by apply bounded_step.
  - intros Hd. apply (single_run o es (initial frag) Hd). reflexivity.
Qed.

(** ** The guard, when drawings return and when one throws *)

(** As long as no drawing throws, the guard is up only while a callback
    of a commit is still pending, however the view transitions settle:
    fulfilled or rejected, [finished] lowers the guard. Both revisions. *)
Theorem guard_cleared_when_draws_return (o : Options) (frag : string)
    (es : list Event) :
  (draws_return (Part000.step o) es (initial frag) = true →
   let w := Part000.run o es (initial frag) in
   isNavigating (st w) = true → ∃ t, t ∈ tasks w ∧ pending_commit t = true)
  ∧ (draws_return (Part002.step o) es (initial frag) = true →
     let w := Part002.run o es (initial frag) in
     isNavigating (st w) = true → ∃ t, t ∈ tasks w ∧ pending_commit t = true).
Proof.
  split; intros Hd.
  - apply (busy_run_000 o es (initial frag) Hd). intros Hn. discriminate Hn.
  - apply (busy_run_002 o es (initial frag) Hd). intros Hn. discriminate Hn.
Qed.

(** In [part_002] a drawing that throws while no other commit is pending
    jams the controller for good: whatever happens afterwards, the guard
    stays up, nothing is drawn and nothing is committed. *)
Theorem throw_jams_for_good (o : Options) (w : World) (i : nat) (r : string)
    (a : bool) (how : settlement) (es : list Event) :
  tasks w !! i = Some (Frame r a) →
  how ≠ Fulfilled →
  isNavigating (st w) = true →
  (∀ t, t ∈ delete i (tasks w) → t = HashChange) →
  let w1 := Part002.step o w (Run i how) in
  let w' := Part002.run o es w1 in
  tasks w1 = delete i (tasks w)
  ∧ isNavigating (st w') = true
  ∧ mount w' = mount w
  ∧ log w' = log w.
Proof.
  intros Hi Hhow Hn Hrest w1 w'.
  assert (Hw1 : ∃ t, w1 = set_routeTitle t (set_tasks (delete i (tasks w)) w)).
  { unfold w1. simpl. rewrite Hi. simpl.
    destruct how; [done | |]; apply thrown_title_002. }
  destruct Hw1 as [t Hw1]. split; [by rewrite Hw1 |].
  destruct (held_run o (mount w) (log w) es w1) as ((Hn' & _) & Hm & Hl).
  - rewrite Hw1. split; [split; [exact Hn | exact Hrest] | split; reflexivity].
  - by repeat split.
Qed.

(** ** Before the first snapshot *)







(** ** Pending commits run to their end *)

Lemma total_weight_app l1 l2 :
  total_weight (l1 ++ l2) = (total_weight l1 + total_weight l2)%nat.
Proof.
  induction l1 as [|t l1 IH]; [reflexivity |]. simpl.
  unfold total_weight in *. simpl. rewrite IH. lia.
Qed.

Lemma runs_commit_000 o : runs_commit (Part000.step o).
Proof.
  intros w t rest Ht Hp. simpl. rewrite Ht. simpl.
  destruct t as [| r [|] |]; try discriminate Hp; simpl.
  - destruct (routeRenderer_drawn_000 r (set_tasks rest w)) as (t & v & ->).
    by repeat split.
  - destruct (routeRenderer_drawn_000 r (set_tasks rest w)) as (t & v & ->).
    by repeat split.
  - by repeat split.
Qed.

Lemma runs_commit_002 o : runs_commit (Part002.step o).
Proof.
  intros w t rest Ht Hp. simpl. rewrite Ht. simpl.
  destruct t as [| r [|] |]; try discriminate Hp; simpl.
  - destruct (routeRenderer_drawn_002 r (set_tasks rest w)) as (t & v & ->).
    by repeat split.
  - destruct (routeRenderer_drawn_002 r (set_tasks rest w)) as (t & v & ->).
    by repeat split.
  - by repeat split.
Qed.

Lemma drain_finishes step n w :
  runs_commit step →
  total_weight (tasks w) = n →
  (∀ t, t ∈ tasks w → pending_commit t = true) →
  tasks w ≠ [] →
  tasks (drain step n w) = []
  ∧ isNavigating (st (drain step n w)) = false
  ∧ currentRoute (st (drain step n w)) = currentRoute (st w)
  ∧ content (st (drain step n w)) = content (st w).
Proof.
  intros Hstep. revert w. induction n as [|n IH]; intros w Hn Hall Hne.
  - destruct (tasks w) as [|t rest]; [done |].
    unfold total_weight in Hn. simpl in Hn. destruct t as [| r [|] |]; simpl in Hn; lia.
  - destruct (tasks w) as [|t rest] eqn:Ht; [done |].
    assert (Hp : pending_commit t = true) by (apply Hall, elem_of_cons; by left).
    destruct (Hstep w t rest Ht Hp) as (Hcur & Hcont & Htail).
    change (drain step (S n) w) with (drain step n (step w (Run 0 Fulfilled))).
    set (w' := step w (Run 0 Fulfilled)) in *.
    assert (Hrest : ∀ t', t' ∈ rest → pending_commit t' = true)
      by (intros t' Hin; apply Hall, elem_of_cons; by right).
    assert (Hw : total_weight (t :: rest) = (weight t + total_weight rest)%nat)
      by reflexivity.
    destruct (decide (tasks w' = [])) as [Hdone | Hmore].
    + assert (Hclear : isNavigating (st w') = false ∧ n = 0%nat).
      { destruct t as [| r [|] |]; try discriminate Hp.
        - rewrite Htail in Hdone. by destruct rest.
        - destruct Htail as [Htl Hnav]. rewrite Htl in Hdone. subst rest.
          split; [exact Hnav |]. rewrite Hdone in Hn. cbv in Hn. lia.
        - destruct Htail as [Htl Hnav]. rewrite Htl in Hdone. subst rest.
          split; [exact Hnav |]. rewrite Hdone in Hn. cbv in Hn. lia. }
      destruct Hclear as [Hnav ->]. unfold drain. simpl. by repeat split.
    + destruct (IH w') as (H1 & H2 & H3 & H4); [| | exact Hmore |].
      * rewrite Hw in Hn.
        destruct t as [| r [|] |]; try discriminate Hp; simpl in Hn.
        -- rewrite Htail, total_weight_app. unfold total_weight at 2. simpl. lia.
        -- destruct Htail as [-> _]. lia.
        -- destruct Htail as [-> _]. lia.
      * destruct t as [| r [|] |]; try discriminate Hp.
        -- rewrite Htail. intros t' [Hin | ->%list_elem_of_singleton]%elem_of_app;
             [by apply Hrest | reflexivity].
        -- destruct Htail as [-> _]. exact Hrest.
        -- destruct Htail as [-> _]. exact Hrest.
      * repeat split; congruence.
Qed.

(** When only callbacks of commits are pending and each of them runs to
    its end (every drawing returns), running the oldest one as many times
    as their weight empties the queue and leaves the controller idle on
    the route and the content it had. When instead the drawing of the
    oldest frame throws, that frame leaves the queue and the guard stays as
    it was. Both revisions. *)
Theorem pending_commits_finish (o : Options) (w : World) :
  (∀ t, t ∈ tasks w → pending_commit t = true) →
  tasks w ≠ [] →
  let n := total_weight (tasks w) in
  (let final := drain (Part000.step o) n w in
   tasks final = [] ∧ isNavigating (st final) = false
   ∧ currentRoute (st final) = currentRoute (st w)
   ∧ content (st final) = content (st w))
  ∧ (let final := drain (Part002.step o) n w in
     tasks final = [] ∧ isNavigating (st final) = false
     ∧ currentRoute (st final) = currentRoute (st w)
     ∧ content (st final) = content (st w))
  ∧ (∀ r a rest how, tasks w = Frame r a :: rest → how ≠ Fulfilled →
       (let w' := Part000.step o w (Run 0 how) in
        tasks w' = rest ∧ isNavigating (st w') = isNavigating (st w))
       ∧ (let w' := Part002.step o w (Run 0 how) in
          tasks w' = rest ∧ isNavigating (st w') = isNavigating (st w))).
Proof.
  intros Hall Hne n. split; [| split].
  - apply drain_finishes; auto using runs_commit_000.
  - apply drain_finishes; auto using runs_commit_002.
  - intros r a rest how Htasks Hhow. simpl. rewrite Htasks. simpl.
    split.
    + destruct how; [done | |].
      * destruct (thrown_cases_000 false r (set_tasks rest w))
          as [[t ->] | (t & v & ->)]; by split.
      * destruct (thrown_cases_000 true r (set_tasks rest w))
          as [[t ->] | (t & v & ->)]; by split.
    + destruct how; [done | |];
        destruct (thrown_title_002 r (set_tasks rest w)) as [t ->]; by split.
Qed.

(** ** A request that goes through the address *)

Lemma location_hash_of w r :
  fragment w = r → r ≠ EmptyString → location_hash w = String "#" r.
Proof. intros Hf Hr. unfold location_hash. rewrite Hf. by destruct r. Qed.

(** What the address keeps of a fragment has nothing left to encode, and
    [trim] leaves it alone. *)
Lemma hex_digit_kept n : (n < 16)%nat → kept (hex_digit n) = true.
Proof.
  intros Hn. do 16 (destruct n as [|n]; [reflexivity |]). lia.
Qed.

Lemma encode_fragment_kept s : Widgets.all_chars kept (encode_fragment s) = true.
Proof.
  induction s as [|a s IH]; [reflexivity |]. cbn [encode_fragment].
  destruct (dropped a); [exact IH |].
  destruct (percent_encoded a) eqn:Hp.
  - pose proof (nat_ascii_bounded a) as Hb.
    cbn [Widgets.all_chars]. rewrite IH, !hex_digit_kept; [reflexivity | |].
    + apply Nat.mod_upper_bound. lia.
    + apply Nat.Div0.div_lt_upper_bound. lia.
  - cbn [Widgets.all_chars]. unfold kept at 1. by rewrite Hp, IH.
Qed.

Lemma kept_not_space a : kept a = true → Str.is_space a = false.
Proof.
  unfold kept, percent_encoded, Str.is_space.
  destruct (Nat.leb_spec (nat_of_ascii a) 32) as [Hle | Hgt]; [discriminate |].
  intros _. apply orb_false_iff. split.
  - apply andb_false_iff. right. apply Nat.leb_gt. lia.
  - apply Nat.eqb_neq. lia.
Qed.

Lemma trim_end_kept s : Widgets.all_chars kept s = true → Str.trim_end s = s.
Proof.
  induction s as [|a s IH]; [reflexivity |]. simpl.
  intros [Ha Hs]%andb_true_iff. rewrite (IH Hs), (kept_not_space a Ha).
  by destruct s.
Qed.

Lemma trim_kept s : Widgets.all_chars kept s = true → Str.trim s = s.
Proof.
  intros Hs. unfold Str.trim.
  assert (Hstart : Str.trim_start s = s).
  { destruct s as [|a s]; [reflexivity |]. simpl in Hs |- *.
    apply andb_true_iff in Hs as [Ha _]. by rewrite (kept_not_space a Ha). }
  rewrite Hstart. by apply trim_end_kept.
Qed.

Lemma encoded_trim r : encode_fragment r = r → Str.trim r = r.
Proof. intros He. apply trim_kept. rewrite <- He. apply encode_fragment_kept. Qed.

Lemma through_address_000 o w c x :
  content (st w) = Some c → tasks w = [] →
  let r := Part000.normalizeRoute x (st w) in
  encode_fragment r = r → r ≠ EmptyString → location_hash w ≠ "#" +:+ r →
  through_address (Part000.navigate o) (Part000.step o) o w c x r.
Proof.
  intros Hc Htasks r Henc Hr Hloc. unfold through_address.
  pose proof (encoded_trim r Henc) as Htrim.
  assert (Hfrag : r ≠ fragment w).
  { intros Heq. apply Hloc. by rewrite (location_hash_of w r). }
  assert (Hw1 : Part000.navigate o x w = enqueue HashChange (set_fragment r w)).
  { unfold Part000.navigate. fold r. rewrite decide_True by exact Hloc.
    unfold assign_location_hash. change (Str.strip_hash ("#" +:+ r)) with r.
    rewrite Henc. by rewrite decide_False by exact Hfrag. }
  cbv zeta. rewrite Hw1. split; [simpl; by rewrite Htasks |].
  simpl. rewrite Htasks. simpl.
  unfold Part000.handleRouteChange, parseHashRoute.
  rewrite (location_hash_of _ r) by done.
  change (Str.strip_hash (String "#" r)) with r. rewrite Htrim.
  assert (Hor : ∀ d, Str.or_else r d = r) by (intros d; by destruct r).
  rewrite Hor.
  assert (Hidem : Part000.normalizeRoute r (st w) = r)
    by apply normalizeRoute_again_000.
  simpl st. rewrite Hidem. rewrite decide_False by (by intros []).
  unfold Part000.renderRoute. simpl. rewrite Hc. simpl. by repeat split.
Qed.

Lemma through_address_002 o w c x :
  content (st w) = Some c → tasks w = [] →
  let r := Part002.normalizeRoute x (st w) in
  encode_fragment r = r → r ≠ EmptyString → location_hash w ≠ "#" +:+ r →
  isNavigating (st w) = false →
  through_address (Part002.navigate o) (Part002.step o) o w c x r.
Proof.
  intros Hc Htasks r Henc Hr Hloc Hidle. unfold through_address.
  pose proof (encoded_trim r Henc) as Htrim.
  assert (Hfrag : r ≠ fragment w).
  { intros Heq. apply Hloc. by rewrite (location_hash_of w r). }
  assert (Hw1 : Part002.navigate o x w = enqueue HashChange (set_fragment r w)).
  { unfold Part002.navigate. fold r. rewrite decide_True by exact Hloc.
    unfold assign_location_hash. change (Str.strip_hash ("#" +:+ r)) with r.
    rewrite Henc. by rewrite decide_False by exact Hfrag. }
  cbv zeta. rewrite Hw1. split; [simpl; by rewrite Htasks |].
  simpl. rewrite Htasks. simpl.
  unfold Part002.handleRouteChange, parseHashRoute.
  rewrite (location_hash_of _ r) by done.
  change (Str.strip_hash (String "#" r)) with r. rewrite Htrim.
  assert (Hor : ∀ d, Str.or_else r d = r) by (intros d; by destruct r).
  rewrite Hor.
  assert (Hidem : Part002.normalizeRoute r (st w) = r)
    by apply normalizeRoute_again_002.
  simpl st. rewrite Hidem. rewrite decide_False by (by intros []).
  unfold Part002.renderRoute. simpl. rewrite Hc, Hidle. simpl. by repeat split.
Qed.

(** A request for a route, on an idle page at another address with content
    loaded: [navigate] only moves the address to the normalized route and
    leaves a [hashchange] pending; when that event is handled the route is
    committed. The normalized route has to be one that the address keeps
    as it is (nothing to percent-encode, as in [home], [latest] and every
    URL-safe id) and not be empty. *)
Theorem navigate_through_address (o : Options) (w : World) (c : Snapshot)
    (x : string) :
  content (st w) = Some c →
  tasks w = [] →
  isNavigating (st w) = false →
  (let r := Part000.normalizeRoute x (st w) in
   encode_fragment r = r → r ≠ EmptyString → location_hash w ≠ "#" +:+ r →
   through_address (Part000.navigate o) (Part000.step o) o w c x r)
  ∧ (let r := Part002.normalizeRoute x (st w) in
     encode_fragment r = r → r ≠ EmptyString → location_hash w ≠ "#" +:+ r →
     through_address (Part002.navigate o) (Part002.step o) o w c x r).
Proof.
  intros Hc Htasks Hidle. split.
  - intros r. by apply through_address_000.
  - intros r ? ? ?. by apply through_address_002.
Qed.

Lemma parse_at_home w : fragment w = "home" → parseHashRoute w = "home".
Proof. intros Hf. unfold parseHashRoute, location_hash. by rewrite Hf. Qed.

(** An address that names no route (an unknown article, say), on an idle
    page with content loaded: [handleRouteChange] commits nothing and
    sends the address to [home]; when the [hashchange] that follows is
    handled, [home] is committed. Both revisions. *)
Theorem invalid_address_goes_home (o : Options) (w : World) (c : Snapshot) :
  content (st w) = Some c →
  tasks w = [] →
  isNavigating (st w) = false →
  (Part000.normalizeRoute (parseHashRoute w) (st w) ≠ parseHashRoute w →
   Part000.handleRouteChange o w = Part000.navigate o "home" w
   ∧ through_address (Part000.navigate o) (Part000.step o) o w c "home" "home")
  ∧ (Part002.normalizeRoute (parseHashRoute w) (st w) ≠ parseHashRoute w →
     Part002.handleRouteChange o w = Part002.navigate o "home" w
     ∧ through_address (Part002.navigate o) (Part002.step o) o w c "home" "home").
Proof.
  intros Hc Htasks Hidle. split; intros Hbad.
  - assert (Hhome : Part000.normalizeRoute (parseHashRoute w) (st w) = "home").
    { revert Hbad. unfold Part000.normalizeRoute. by repeat case_decide. }
    assert (Hloc : location_hash w ≠ "#" +:+ "home").
    { intros Hl. apply Hbad. rewrite (parse_at_home w (hash_home w Hl)).
      reflexivity. }
    split.
    + unfold Part000.handleRouteChange. rewrite decide_True by exact Hbad.
      by rewrite Hhome.
    + by apply (through_address_000 o w c "home").
  - assert (Hhome : Part002.normalizeRoute (parseHashRoute w) (st w) = "home").
    { revert Hbad. unfold Part002.normalizeRoute. by repeat case_decide. }
    assert (Hloc : location_hash w ≠ "#" +:+ "home").
    { intros Hl. apply Hbad. rewrite (parse_at_home w (hash_home w Hl)).
      reflexivity. }
    split.
    + unfold Part002.handleRouteChange. rewrite decide_True by exact Hbad.
      by rewrite Hhome.
    + by apply (through_address_002 o w c "home").
Qed.

(** ** Pieces of the templates *)

Section WidgetFacts.
Import Widgets.

(** The level of a heading lies between 2 and 4: a level in that range
    is kept as it is, whole or not, a smaller one, zero or one that is not
    a number gives 2, a larger one gives 4. *)
Theorem heading_level_range (level : Num.number) :
  ∃ q, heading_level level = Num.Finite q
    ∧ QArith_base.Qle (QArith_base.inject_Z 2) q
    ∧ QArith_base.Qle q (QArith_base.inject_Z 4)
    ∧ (∀ p, level = Num.Finite p →
         QArith_base.Qle (QArith_base.inject_Z 2) p →
         QArith_base.Qle p (QArith_base.inject_Z 4) → QArith_base.Qeq q p)
    ∧ (∀ p, level = Num.Finite p →
         QArith_base.Qlt p (QArith_base.inject_Z 2) →
         QArith_base.Qeq q (QArith_base.inject_Z 2))
    ∧ (∀ p, level = Num.Finite p →
         QArith_base.Qlt (QArith_base.inject_Z 4) p →
         QArith_base.Qeq q (QArith_base.inject_Z 4))
    ∧ (level = Num.NaN → QArith_base.Qeq q (QArith_base.inject_Z 2)).
Proof.
  destruct level as [| [|] | p].
  - exists (QArith_base.inject_Z 2).
    repeat split; try discriminate; intros; try discriminate; reflexivity.
  - exists (QArith_base.inject_Z 2).
    repeat split; try discriminate; intros; try discriminate.
  - exists (QArith_base.inject_Z 4).
    repeat split; try discriminate; intros; try discriminate.
  - unfold heading_level, Num.or_else.
    destruct (QArith_base.Qeq_bool p (QArith_base.inject_Z 0)) eqn:Hz.
    + apply QArith_base.Qeq_bool_iff in Hz. exists (QArith_base.inject_Z 2).
      split; [reflexivity |].
      unfold QArith_base.Qle, QArith_base.Qlt, QArith_base.Qeq in *. simpl in *.
      repeat split; try lia; try discriminate;
        intros p0 Hp0; inversion Hp0; subst p0; lia.
    + destruct (QArith_base.Qle_bool p (QArith_base.inject_Z 2)) eqn:H2.
      * pose proof (proj1 (QArith_base.Qle_bool_iff _ _) H2) as H2q.
        exists (QArith_base.inject_Z 2).
        split; [unfold Num.Math_max, Num.of_Z; by rewrite H2 |].
        unfold QArith_base.Qle, QArith_base.Qlt, QArith_base.Qeq in *. simpl in *.
        repeat split; try lia; try discriminate;
          intros p0 Hp0; inversion Hp0; subst p0; lia.
      * assert (H2' : ¬ QArith_base.Qle p (QArith_base.inject_Z 2)).
        { intros Hle. apply QArith_base.Qle_bool_iff in Hle. congruence. }
        destruct (QArith_base.Qle_bool p (QArith_base.inject_Z 4)) eqn:H4.
        -- pose proof (proj1 (QArith_base.Qle_bool_iff _ _) H4) as H4q. exists p.
           split; [unfold Num.Math_max, Num.Math_min, Num.of_Z; by rewrite H2, H4 |].
           unfold QArith_base.Qle, QArith_base.Qlt, QArith_base.Qeq in *. simpl in *.
           repeat split; try lia; try discriminate;
             intros p0 Hp0; inversion Hp0; subst p0; lia.
        -- assert (H4' : ¬ QArith_base.Qle p (QArith_base.inject_Z 4)).
           { intros Hle. apply QArith_base.Qle_bool_iff in Hle. congruence. }
           exists (QArith_base.inject_Z 4).
           split; [unfold Num.Math_max, Num.Math_min, Num.of_Z; by rewrite H2, H4 |].
           unfold QArith_base.Qle, QArith_base.Qlt, QArith_base.Qeq in *. simpl in *.
           repeat split; try lia; try discriminate;
             intros p0 Hp0; inversion Hp0; subst p0; lia.
Qed.

(** A level of two and a half is kept: the tag is not one of [h2], [h3]
    and [h4]. *)
Example heading_level_fraction :
  heading_level (Num.Finite (QArith_base.Qmake 5 2))
  = Num.Finite (QArith_base.Qmake 5 2).
Proof. reflexivity. Qed.

Lemma activeIndex_range ci scale :
  (0 ≤ activeIndex ci scale)%Z
  ∧ (activeIndex ci scale ≤ Z.max (Z.of_nat (length scale) - 1) 0)%Z
  ∧ (scale ≠ [] → activeIndex ci scale < Z.of_nat (length scale))%Z.
Proof.
  unfold activeIndex. repeat split; try lia.
  intros Hne. destruct scale; [done |]. simpl length. lia.
Qed.

(** The heat widget draws one bar per label of the scale (four labels when
    the field is not an array); the active index is clamped into the
    scale; the bars up to it are the active ones, the first bar always;
    every bar stands on the same base line. *)
Theorem heat_bars (currentIndex : option Z) (field : option (list string)) :
  let scale := riskScale field in
  let ai := activeIndex currentIndex scale in
  (field = None → length scale = 4%nat)
  ∧ (0 ≤ ai ≤ Z.max (Z.of_nat (length scale) - 1) 0)%Z
  ∧ length (bars_000 currentIndex field) = length scale
  ∧ length (bars_002 currentIndex field) = length scale
  ∧ (∀ i b, bars_000 currentIndex field !! i = Some b →
       x b = (Z.of_nat i * 25)%Z ∧ (y b + height b = 80)%Z
       ∧ (active b = true ↔ (Z.of_nat i ≤ ai)%Z)
       ∧ (i = 0%nat → active b = true))
  ∧ (∀ i b, bars_002 currentIndex field !! i = Some b →
       x b = (Z.of_nat i * 25)%Z ∧ (y b + height b = 85)%Z
       ∧ (active b = true ↔ (Z.of_nat i ≤ ai)%Z)
       ∧ (i = 0%nat → active b = true)).
Proof.
  intros scale ai.
  destruct (activeIndex_range currentIndex scale) as (H0 & Hmax & _).
  split; [by intros -> |]. split; [done |].
  unfold bars_000, bars_002. fold scale. fold ai.
  rewrite !length_imap. split; [reflexivity |]. split; [reflexivity |].
  split; intros i b Hb; rewrite list_lookup_imap in Hb;
    destruct (scale !! i); simpl in Hb; try discriminate Hb;
    inversion Hb; subst b; simpl.
  - split; [reflexivity |]. split; [by case_bool_decide |].
    split; [apply bool_decide_eq_true |].
    intros ->. apply bool_decide_eq_true. exact H0.
  - split; [reflexivity |]. split; [lia |].
    split; [apply bool_decide_eq_true |].
    intros ->. apply bool_decide_eq_true. exact H0.
Qed.

Lemma name_char_strip s : all_chars name_char (strip_name s) = true.
Proof.
  induction s as [|a s IH]; [reflexivity |]. simpl.
  destruct (name_char a) eqn:Ha; [| exact IH]. simpl. by rewrite Ha, IH.
Qed.

Lemma strip_name_fixed s : all_chars name_char s = true → strip_name s = s.
Proof.
  induction s as [|a s IH]; [reflexivity |]. simpl.
  intros [Ha Hs]%andb_true_iff. rewrite Ha. f_equal. by apply IH.
Qed.

Lemma strip_name_length s : (String.length (strip_name s) ≤ String.length s)%nat.
Proof.
  induction s as [|a s IH]; [reflexivity |]. simpl.
  destruct (name_char a); simpl; lia.
Qed.

(** In [part_002] the name of a view transition is [hero-] followed by
    letters, digits and hyphens only; an id made of such characters is
    kept as it is, and cleaning twice changes nothing more. *)
Theorem transition_name_clean (id : string) :
  transitionName_002 id = "hero-" +:+ strip_name id
  ∧ all_chars name_char (strip_name id) = true
  ∧ strip_name (strip_name id) = strip_name id
  ∧ (all_chars name_char id = true → strip_name id = id)
  ∧ (String.length (strip_name id) ≤ String.length id)%nat.
Proof.
  split; [reflexivity |]. split; [apply name_char_strip |].
  split; [apply strip_name_fixed, name_char_strip |].
  split; [apply strip_name_fixed | apply strip_name_length].
Qed.

End WidgetFacts.

Example heat_default_text_002 :
  Widgets.bars_text_002 (Some 1%Z) (Some ["Low"; "High"])
  = "<rect x=" +:+ Widgets.quoted "0" +:+ " y=" +:+ Widgets.quoted "20"
    +:+ " width=" +:+ Widgets.quoted "18" +:+ " height=" +:+ Widgets.quoted "65"
    +:+ " fill=" +:+ Widgets.quoted "rgba(212,175,55,0.85)" +:+ "></rect>"
    +:+ "<rect x=" +:+ Widgets.quoted "25" +:+ " y=" +:+ Widgets.quoted "26"
    +:+ " width=" +:+ Widgets.quoted "18" +:+ " height=" +:+ Widgets.quoted "59"
    +:+ " fill=" +:+ Widgets.quoted "rgba(212,175,55,0.85)" +:+ "></rect>".
Proof. vm_compute. reflexivity. Qed.

Example transition_name_sample :
  Widgets.transitionName_002 "Story 1: a/b-c" = "hero-Story1ab-c".
Proof. reflexivity. Qed.

(** ** The further properties at sample inputs *)

Lemma first_load_is_taken_witness :
  let resume0 := snd (Part000.load false 0 (Store.constructor "content.json" 7000)) in
  let resume2 := snd (Part002.load false 0 (Store.constructor "content.json" 7000)) in
  let s0 := Poll.after_calls resume0 [Poll.Subscribe 0%nat]
              (Store.constructor "content.json" 7000) in
  let s2 := Poll.after_calls resume2 [Poll.Subscribe 0%nat]
              (Store.constructor "content.json" 7000) in
  Poll.taken resume0 s0 200 Sample.first_feed
  ∧ Poll.taken resume2 s2 200 Sample.first_feed.
Proof.
  destruct (first_load_is_taken "content.json" 7000%Z [Poll.Subscribe 0%nat]
              200 Sample.first_feed) as [H0 H2].
  - reflexivity.
  - vm_compute. discriminate.
  - split; [apply H0 | apply H2]; reflexivity.
Defined.

Lemma start_stop_lifecycle_witness :
  let s := Store.constructor (P := Snapshot) "content.json" 7000 in
  let h := {| Poll.issued := 0; Poll.intervals := [] |} in
  Poll.intervals (snd (Poll.start s h)) = [(1%nat, 7000%Z)]
  ∧ Poll.intervals (snd (Poll.stop (fst (Poll.start s h)) (snd (Poll.start s h)))) = []
  ∧ Store.timerId (fst (Poll.stop (fst (Poll.start s h)) (snd (Poll.start s h)))) = None.
Proof.
  intros s h.
  destruct (start_stop_lifecycle s h) as (_ & _ & Hlife).
  specialize (Hlife eq_refl).
  destruct (Poll.start s h) as [s1 h1] eqn:Hstart.
  destruct Hlife as [Harm Hstop].
  assert (Hh : Poll.issued_only h) by (intros handle period Hin; inversion Hin).
  specialize (Hstop Hh). cbn [fst snd].
  destruct (Poll.stop s1 h1) as [s2 h2] eqn:Hs.
  cbn [fst snd]. destruct Hstop as [H1 H2].
  split; [exact Harm | split; [exact H1 | exact H2]].
Defined.

Lemma one_commit_in_flight_witness :
  in_flight Sample.animating_002
  = if isNavigating (st Sample.animating_002) then 1%nat else 0%nat.
Proof.
  apply (proj2 (one_commit_in_flight Sample.with_transitions "story-1"
                  [Content Sample.first_feed; Run 0 Fulfilled])).
  reflexivity.
Defined.

Lemma guard_cleared_when_draws_return_witness :
  isNavigating (st Sample.animating_002) = true
  ∧ ∃ t, t ∈ tasks Sample.animating_002 ∧ pending_commit t = true.
Proof.
  split; [reflexivity |].
  apply (proj2 (guard_cleared_when_draws_return Sample.with_transitions "story-1"
                  [Content Sample.first_feed; Run 0 Fulfilled])).
  - reflexivity.
  - reflexivity.
Defined.

Lemma throw_jams_for_good_witness :
  let w := Part002.run Sample.plain [Content Sample.first_feed] (initial "story-1") in
  let w' := Part002.run Sample.plain [Click "home"; Run 0 Fulfilled; Boot]
              (Part002.step Sample.plain w (Run 0 Failed)) in
  isNavigating (st w') = true ∧ mount w' = Blank ∧ log w' = log w.
Proof.
  intros w w'.
  destruct (throw_jams_for_good Sample.plain w 0 "story-1" false Failed
              [Click "home"; Run 0 Fulfilled; Boot]) as (_ & H1 & H2 & H3).
  - reflexivity.
  - discriminate.
  - reflexivity.
  - intros t Ht. vm_compute in Ht. by apply elem_of_nil in Ht.
  - split; [exact H1 | split; [exact H2 | exact H3]].
Defined.


Lemma pending_commits_finish_witness :
  tasks (drain (Part002.step Sample.with_transitions) 1 Sample.animating_002) = []
  ∧ isNavigating
      (st (drain (Part002.step Sample.with_transitions) 1 Sample.animating_002))
    = false.
Proof.
  assert (Hall : ∀ t, t ∈ tasks Sample.animating_002 → pending_commit t = true).
  { intros t Hin. vm_compute in Hin.
    apply list_elem_of_singleton in Hin. by subst t. }
  assert (Hne : tasks Sample.animating_002 ≠ []) by (vm_compute; discriminate).
  destruct (proj1 (proj2 (pending_commits_finish Sample.with_transitions
                            Sample.animating_002 Hall Hne))) as (H1 & H2 & _).
  split; [exact H1 | exact H2].
Defined.

Lemma navigate_through_address_witness :
  through_address (Part002.navigate Sample.with_transitions)
    (Part002.step Sample.with_transitions) Sample.with_transitions
    Sample.reading_002 Sample.first_feed "latest" "latest".
Proof.
  refine (proj2 (navigate_through_address Sample.with_transitions
                   Sample.reading_002 Sample.first_feed "latest" _ _ _) _ _ _).
  - reflexivity.
  - reflexivity.
  - reflexivity.
  - reflexivity.
  - discriminate.
  - vm_compute. discriminate.
Defined.

Lemma invalid_address_goes_home_witness :
  Part002.handleRouteChange Sample.with_transitions
    (set_fragment "ghost-article" Sample.reading_002)
  = Part002.navigate Sample.with_transitions "home"
      (set_fragment "ghost-article" Sample.reading_002).
Proof.
  refine (proj1 (proj2 (invalid_address_goes_home Sample.with_transitions
                          (set_fragment "ghost-article" Sample.reading_002)
                          Sample.first_feed _ _ _) _)).
  - reflexivity.
  - reflexivity.
  - reflexivity.
  - vm_compute. discriminate.
Defined.
